(** * PaymentEscrow: a shallow embedding of [contracts/PaymentEscrow.sol]

    The contract holds rental payments between a payer (tenant) and a payee
    (landlord).  Every public function of the contract is embedded as a
    transaction in a small state-and-revert monad over the contract's storage,
    the state of the external LeaseToken ledger it calls, and the ordered
    trace of side effects the call performs.  *)

From stdpp Require Import gmap list.
From Stdlib Require Import NArith Lia.

Local Open Scope N_scope.

(** ** Machine integers

    [uint256] values are naturals below [2^256]; Solidity ^0.8.0 arithmetic
    is checked, so [+] and [-] abort (Panic 0x11) instead of wrapping. *)

Definition uint256_max : N := 2 ^ 256 - 1.

Definition checked_add (a b : N) : option N :=
  if decide (a + b ≤ uint256_max) then Some (a + b) else None.

Definition checked_sub (a b : N) : option N :=
  if decide (b ≤ a) then Some (a - b) else None.

(** Addresses are opaque identities compared by equality; [address(0)] is
    the unset sentinel. *)
Abbreviation address := N.

Definition address_0 : address := 0.

(** ** Storage layout *)

Inductive PaymentStatus := PENDING | PAID | RELEASED | REFUNDED.

Record Payment := {
  payer : address;
  payee : address;
  amount : N;
  status : PaymentStatus
}.

#[global] Instance PaymentStatus_eq_dec : EqDecision PaymentStatus.
Proof. solve_decision. Defined.

#[global] Instance Payment_eq_dec : EqDecision Payment.
Proof. solve_decision. Defined.

(** A Solidity mapping is total: an absent key reads as the zero value of
    the struct, whose status is the first enum member. *)
Definition zero_payment : Payment :=
  {| payer := address_0; payee := address_0; amount := 0; status := PENDING |}.

(** [payments[id]]. *)
Definition payment_at (m : gmap N Payment) (id : N) : Payment :=
  default zero_payment (m !! id).

(** ** The LeaseToken ledger *)

Record Ledger := {
  balances : gmap N N;
  allowances : gmap (N * N) N
}.

(** Modelled from the spec: LeaseToken.sol is imported by the contract but is
    not among the sources; section 4.4 gives its capability interface
    (balance query, authorize, transfer, transfer-from) and section 4.1 says a
    transfer fails on insufficient balance or missing authorization. *)
Definition checkLeaseToken (who : address) (l : Ledger) : N :=
  default 0 (balances l !! who).

(** Modelled from the spec: the authorize capability of LeaseToken.sol
    (absent from the sources), recording what [spender] may move out of
    [holder]'s balance. *)
Definition approveLeaseToken (holder spender : address) (value : N)
    (l : Ledger) : option Ledger :=
  Some {| balances := balances l;
          allowances := <[(holder, spender) := value]> (allowances l) |}.

(** Modelled from the spec: the transfer capability of LeaseToken.sol (absent
    from the sources): debit the sender, credit the recipient, fail when the
    sender's balance is short (or the credit would leave [uint256]). *)
Definition transferLeaseToken (sender recipient : address) (value : N)
    (l : Ledger) : option Ledger :=
  match checked_sub (default 0 (balances l !! sender)) value with
  | None => None
  | Some rest =>
      let debited := <[sender := rest]> (balances l) in
      match checked_add (default 0 (debited !! recipient)) value with
      | None => None
      | Some total =>
          Some {| balances := <[recipient := total]> debited;
                  allowances := allowances l |}
      end
  end.

(** Modelled from the spec: the transfer-from capability of LeaseToken.sol
    (absent from the sources): consume [spender]'s authorization over
    [sender]'s balance, then transfer. *)
Definition transferLeaseTokenFrom (spender sender recipient : address)
    (value : N) (l : Ledger) : option Ledger :=
  match checked_sub (default 0 (allowances l !! (sender, spender))) value with
  | None => None
  | Some remaining =>
      transferLeaseToken sender recipient value
        {| balances := balances l;
           allowances := <[(sender, spender) := remaining]> (allowances l) |}
  end.

Arguments approveLeaseToken : simpl never.
Arguments transferLeaseToken : simpl never.
Arguments transferLeaseTokenFrom : simpl never.

(** The state-changing calls the contract makes into the ledger. *)
Inductive LedgerCall :=
| CallApprove (holder spender : address) (value : N)
| CallTransfer (sender recipient : address) (value : N)
| CallTransferFrom (spender sender recipient : address) (value : N).

Definition run_ledger (c : LedgerCall) (l : Ledger) : option Ledger :=
  match c with
  | CallApprove h s v => approveLeaseToken h s v l
  | CallTransfer s r v => transferLeaseToken s r v l
  | CallTransferFrom sp s r v => transferLeaseTokenFrom sp s r v l
  end.

(** ** Events and the effect trace *)

Inductive Event :=
| paymentCreated (_payer _payee : address) (_amount : N)
| paymentPaid (_payer _payee : address) (_amount : N)
| paymentReleased (_payer _payee : address) (_amount : N)
| paymentRefunded (_payer _payee : address) (_amount : N)
| protectionFeeSet (_protectionFee : N)
| commissionFeeSet (_commissionFee : N)
| tokenWithdrawn (_owner : address) (_amount : N)
| rentalMarketplaceAddressSet (_rentalMarketplaceAddress : address)
| rentDisputeDAOAddressSet (_rentDisputeDAOAddress : address).

(** The trace lists, in program order, every state-changing call into the
    ledger, every write of a payment's [status] field and every emitted
    event.  Balance queries are static calls and leave no trace. *)
Inductive Effect :=
| ExternalCall (c : LedgerCall)
| StatusWrite (id : N) (s : PaymentStatus)
| Emit (e : Event).

#[global] Instance LedgerCall_eq_dec : EqDecision LedgerCall.
Proof. solve_decision. Defined.

#[global] Instance Event_eq_dec : EqDecision Event.
Proof. solve_decision. Defined.

#[global] Instance Effect_eq_dec : EqDecision Effect.
Proof. solve_decision. Defined.

(** ** The world a transaction runs in *)

Record World := {
  this : address;
  numOfPayments : N;
  protectionFee : N;
  commissionFee : N;
  leaseTokenContract : Ledger;
  payments : gmap N Payment;
  owner : address;
  rentalMarketplaceAddress : address;
  rentDisputeDAOAddress : address;
  trace : list Effect
}.

Definition upd_numOfPayments (v : N) (w : World) : World :=
  {| this := this w; numOfPayments := v;
     protectionFee := protectionFee w; commissionFee := commissionFee w;
     leaseTokenContract := leaseTokenContract w; payments := payments w;
     owner := owner w;
     rentalMarketplaceAddress := rentalMarketplaceAddress w;
     rentDisputeDAOAddress := rentDisputeDAOAddress w; trace := trace w |}.

Definition upd_protectionFee (v : N) (w : World) : World :=
  {| this := this w; numOfPayments := numOfPayments w;
     protectionFee := v; commissionFee := commissionFee w;
     leaseTokenContract := leaseTokenContract w; payments := payments w;
     owner := owner w;
     rentalMarketplaceAddress := rentalMarketplaceAddress w;
     rentDisputeDAOAddress := rentDisputeDAOAddress w; trace := trace w |}.

Definition upd_commissionFee (v : N) (w : World) : World :=
  {| this := this w; numOfPayments := numOfPayments w;
     protectionFee := protectionFee w; commissionFee := v;
     leaseTokenContract := leaseTokenContract w; payments := payments w;
     owner := owner w;
     rentalMarketplaceAddress := rentalMarketplaceAddress w;
     rentDisputeDAOAddress := rentDisputeDAOAddress w; trace := trace w |}.

Definition upd_leaseTokenContract (l : Ledger) (w : World) : World :=
  {| this := this w; numOfPayments := numOfPayments w;
     protectionFee := protectionFee w; commissionFee := commissionFee w;
     leaseTokenContract := l; payments := payments w;
     owner := owner w;
     rentalMarketplaceAddress := rentalMarketplaceAddress w;
     rentDisputeDAOAddress := rentDisputeDAOAddress w; trace := trace w |}.

Definition upd_payments (m : gmap N Payment) (w : World) : World :=
  {| this := this w; numOfPayments := numOfPayments w;
     protectionFee := protectionFee w; commissionFee := commissionFee w;
     leaseTokenContract := leaseTokenContract w; payments := m;
     owner := owner w;
     rentalMarketplaceAddress := rentalMarketplaceAddress w;
     rentDisputeDAOAddress := rentDisputeDAOAddress w; trace := trace w |}.

Definition upd_rentalMarketplaceAddress (a : address) (w : World) : World :=
  {| this := this w; numOfPayments := numOfPayments w;
     protectionFee := protectionFee w; commissionFee := commissionFee w;
     leaseTokenContract := leaseTokenContract w; payments := payments w;
     owner := owner w;
     rentalMarketplaceAddress := a;
     rentDisputeDAOAddress := rentDisputeDAOAddress w; trace := trace w |}.

Definition upd_rentDisputeDAOAddress (a : address) (w : World) : World :=
  {| this := this w; numOfPayments := numOfPayments w;
     protectionFee := protectionFee w; commissionFee := commissionFee w;
     leaseTokenContract := leaseTokenContract w; payments := payments w;
     owner := owner w;
     rentalMarketplaceAddress := rentalMarketplaceAddress w;
     rentDisputeDAOAddress := a; trace := trace w |}.

Definition log (e : Effect) (w : World) : World :=
  {| this := this w; numOfPayments := numOfPayments w;
     protectionFee := protectionFee w; commissionFee := commissionFee w;
     leaseTokenContract := leaseTokenContract w; payments := payments w;
     owner := owner w;
     rentalMarketplaceAddress := rentalMarketplaceAddress w;
     rentDisputeDAOAddress := rentDisputeDAOAddress w;
     trace := trace w ++ [e] |}.

(** ** Failures *)

(** One constructor per [require] message of the contract, plus the
    arithmetic panic of checked arithmetic and a revert bubbling up from the
    ledger. *)
Inductive Failure :=
| OnlyOwner                              (* Only owner can call this function *)
| OnlyRentalMarketplace                  (* Only RentalMarketplace can call this function *)
| OnlyRentalMarketplaceOrRentDisputeDAO  (* Only RentalMarketplace or RentDisputeDAO can call this function *)
| PayerNotEnoughBalance                  (* Payer does not have enough balance *)
| PaymentDoesNotExist                    (* Payment does not exist *)
| PaymentAlreadyMade                     (* Payment has already been made *)
| PaymentNotMadeYet                      (* Payment has not been made yet *)
| ProtectionFeeNotPositive               (* Protection fee must be greater than 0 *)
| CommissionFeeNotPositive               (* Commission fee must be greater than 0 *)
| InvalidRentalMarketplaceAddress        (* Invalid Rentalmarketpalce address *)
| InvalidRentDisputeDAOAddress           (* Invalid RentDisputeDAO address *)
| Panic_0x11                             (* arithmetic overflow or underflow *)
| LedgerReverted.                        (* the external ledger call reverted *)

(** The error taxonomy of the specification (section 7). *)
Inductive ErrorKind :=
| Unauthorized | NotFound | InvalidState | InsufficientFunds | InvalidParameter.

Definition kind (f : Failure) : option ErrorKind :=
  match f with
  | OnlyOwner | OnlyRentalMarketplace | OnlyRentalMarketplaceOrRentDisputeDAO =>
      Some Unauthorized
  | PaymentDoesNotExist => Some NotFound
  | PaymentAlreadyMade | PaymentNotMadeYet => Some InvalidState
  | PayerNotEnoughBalance => Some InsufficientFunds
  | ProtectionFeeNotPositive | CommissionFeeNotPositive
  | InvalidRentalMarketplaceAddress | InvalidRentDisputeDAOAddress =>
      Some InvalidParameter
  | Panic_0x11 | LedgerReverted => None
  end.

(** ** The transaction monad

    A transaction reads [msg.sender], threads the world and either finishes
    with a value or reverts.  A revert keeps the world as it stood when the
    failure was raised, so that one can tell how far the call had got; the
    chain discards it (see [transact]). *)

Inductive Outcome (A : Type) :=
| Done (a : A) (w : World)
| Reverted (f : Failure) (w : World).

Arguments Done {A} a w.
Arguments Reverted {A} f w.

Definition Tx (A : Type) : Type := address → World → Outcome A.

#[global] Instance Tx_ret : MRet Tx := λ A a _ w, Done a w.

#[global] Instance Tx_bind : MBind Tx := λ A B k m sender w,
  match m sender w with
  | Done a w' => k a sender w'
  | Reverted f w' => Reverted f w'
  end.

Definition msg_sender : Tx address := λ sender w, Done sender w.

Definition gets {A} (f : World → A) : Tx A := λ _ w, Done (f w) w.

Definition modify (f : World → World) : Tx unit := λ _ w, Done tt (f w).

Definition require (b : bool) (f : Failure) : Tx unit :=
  λ _ w, if b then Done tt w else Reverted f w.

Definition checked (o : option N) : Tx N :=
  λ _ w, match o with Some v => Done v w | None => Reverted Panic_0x11 w end.

Definition emit (e : Event) : Tx unit := modify (log (Emit e)).

(** A state-changing call into the ledger: the call is traced, then either
    the ledger's new state is installed or its revert bubbles up. *)
Definition ledger_call (c : LedgerCall) : Tx unit :=
  λ _ w,
    let w' := log (ExternalCall c) w in
    match run_ledger c (leaseTokenContract w) with
    | Some l' => Done tt (upd_leaseTokenContract l' w')
    | None => Reverted LedgerReverted w'
    end.

(** Reading a field through a [Payment storage] reference. *)
Definition sload {A} (f : Payment → A) (id : N) : Tx A :=
  gets (λ w, f (payment_at (payments w) id)).

(** [payment.status = s] through a storage reference: the other fields of
    the record stay as they are. *)
Definition store_status (id : N) (s : PaymentStatus) (w : World) : World :=
  let p := payment_at (payments w) id in
  log (StatusWrite id s)
    (upd_payments
       (<[id := {| payer := payer p; payee := payee p;
                   amount := amount p; status := s |}]> (payments w)) w).

Definition write_status (id : N) (s : PaymentStatus) : Tx unit :=
  modify (store_status id s).

(** [payments[id] = p]. *)
Definition store_payment (id : N) (p : Payment) (w : World) : World :=
  log (StatusWrite id (status p)) (upd_payments (<[id := p]> (payments w)) w).

Definition write_payment (id : N) (p : Payment) : Tx unit :=
  modify (store_payment id p).

(** ** Modifiers *)

Definition onlyOwner : Tx unit :=
  sender ← msg_sender;
  o ← gets owner;
  require (bool_decide (sender = o)) OnlyOwner.

Definition onlyRentalMarketplace : Tx unit :=
  sender ← msg_sender;
  m ← gets rentalMarketplaceAddress;
  require (bool_decide (sender = m)) OnlyRentalMarketplace.

Definition onlyRentalMarketplaceOrRentDisputeDAO : Tx unit :=
  sender ← msg_sender;
  m ← gets rentalMarketplaceAddress;
  d ← gets rentDisputeDAOAddress;
  require (bool_decide (sender = m) || bool_decide (sender = d))
          OnlyRentalMarketplaceOrRentDisputeDAO.

Definition checkSufficientBalance (_payer : address) (_amount : N) : Tx unit :=
  bal ← gets (λ w, checkLeaseToken _payer (leaseTokenContract w));
  require (bool_decide (_amount ≤ bal)) PayerNotEnoughBalance.

Definition PaymentExists (_paymentId : N) : Tx unit :=
  n ← gets numOfPayments;
  require (bool_decide (_paymentId < n)) PaymentDoesNotExist.

Definition PaymentPending (_paymentId : N) : Tx unit :=
  s ← sload status _paymentId;
  require (bool_decide (s = PENDING)) PaymentAlreadyMade.

Definition PaymentPaid (_paymentId : N) : Tx unit :=
  s ← sload status _paymentId;
  require (bool_decide (s = PAID)) PaymentNotMadeYet.

Definition invalidProtectionFee (_protectionFee : N) : Tx unit :=
  require (bool_decide (0 < _protectionFee)) ProtectionFeeNotPositive.

Definition invalidCommissionFee (_commissionFee : N) : Tx unit :=
  require (bool_decide (0 < _commissionFee)) CommissionFeeNotPositive.

Definition invalidRentalMarketplaceAddress (a : address) : Tx unit :=
  require (bool_decide (a ≠ address_0)) InvalidRentalMarketplaceAddress.

Definition invalidRentDisputeDAOAddress (a : address) : Tx unit :=
  require (bool_decide (a ≠ address_0)) InvalidRentDisputeDAOAddress.

(** ** Functions *)

(** The deployed contract: [msg.sender] becomes the owner, the fees are
    stored as given, everything else is zero. *)
Definition constructor (deployer self : address) (leaseToken : Ledger)
    (_protectionFee _commissionFee : N) : World :=
  {| this := self; numOfPayments := 0;
     protectionFee := _protectionFee; commissionFee := _commissionFee;
     leaseTokenContract := leaseToken; payments := ∅;
     owner := deployer;
     rentalMarketplaceAddress := address_0;
     rentDisputeDAOAddress := address_0; trace := [] |}.

Definition createPayment (_payer _payee : address) (_amount : N) : Tx N :=
  onlyRentalMarketplaceOrRentDisputeDAO;;
  checkSufficientBalance _payer _amount;;
  n ← gets numOfPayments;
  write_payment n {| payer := _payer; payee := _payee;
                     amount := _amount; status := PENDING |};;
  n ← gets numOfPayments;
  n' ← checked (checked_add n 1);
  modify (upd_numOfPayments n');;
  emit (paymentCreated _payer _payee _amount);;
  n ← gets numOfPayments;
  checked (checked_sub n 1).

Definition pay (_paymentId : N) : Tx unit :=
  onlyRentalMarketplace;;
  PaymentExists _paymentId;;
  PaymentPending _paymentId;;
  self ← gets this;
  p ← sload payer _paymentId;
  a ← sload amount _paymentId;
  ledger_call (CallApprove p self a);;
  p ← sload payer _paymentId;
  a ← sload amount _paymentId;
  ledger_call (CallTransferFrom self p self a);;
  write_status _paymentId PAID;;
  p ← sload payer _paymentId;
  q ← sload payee _paymentId;
  a ← sload amount _paymentId;
  emit (paymentPaid p q a).

Definition release (_paymentId : N) : Tx unit :=
  onlyRentalMarketplace;;
  PaymentExists _paymentId;;
  PaymentPaid _paymentId;;
  self ← gets this;
  q ← sload payee _paymentId;
  a ← sload amount _paymentId;
  fee ← gets commissionFee;
  net ← checked (checked_sub a fee);
  ledger_call (CallTransfer self q net);;
  write_status _paymentId RELEASED;;
  p ← sload payer _paymentId;
  q ← sload payee _paymentId;
  a ← sload amount _paymentId;
  emit (paymentReleased p q a).

Definition refund (_paymentId : N) : Tx unit :=
  onlyRentalMarketplaceOrRentDisputeDAO;;
  PaymentExists _paymentId;;
  PaymentPaid _paymentId;;
  self ← gets this;
  p ← sload payer _paymentId;
  a ← sload amount _paymentId;
  ledger_call (CallTransfer self p a);;
  write_status _paymentId REFUNDED;;
  p ← sload payer _paymentId;
  q ← sload payee _paymentId;
  a ← sload amount _paymentId;
  emit (paymentRefunded p q a).

Definition withdrawToken : Tx unit :=
  onlyOwner;;
  self ← gets this;
  o ← gets owner;
  bal ← gets (λ w, checkLeaseToken self (leaseTokenContract w));
  ledger_call (CallTransfer self o bal);;
  o ← gets owner;
  bal ← gets (λ w, checkLeaseToken self (leaseTokenContract w));
  emit (tokenWithdrawn o bal).

Definition setProtectionFee (_protectionFee : N) : Tx unit :=
  onlyOwner;;
  invalidProtectionFee _protectionFee;;
  modify (upd_protectionFee _protectionFee);;
  emit (protectionFeeSet _protectionFee).

Definition setCommissionFee (_commissionFee : N) : Tx unit :=
  onlyOwner;;
  invalidCommissionFee _commissionFee;;
  modify (upd_commissionFee _commissionFee);;
  emit (commissionFeeSet _commissionFee).

Definition setRentalMarketplaceAddress (a : address) : Tx unit :=
  onlyOwner;;
  invalidRentalMarketplaceAddress a;;
  modify (upd_rentalMarketplaceAddress a);;
  emit (rentalMarketplaceAddressSet a).

Definition setRentDisputeDAOAddress (a : address) : Tx unit :=
  onlyOwner;;
  invalidRentDisputeDAOAddress a;;
  modify (upd_rentDisputeDAOAddress a);;
  emit (rentDisputeDAOAddressSet a).

(** Getters: [view] functions, no modifier. *)

Definition getProtectionFee : Tx N := gets protectionFee.
Definition getCommissionFee : Tx N := gets commissionFee.
Definition getPayment (_paymentId : N) : Tx Payment :=
  gets (λ w, payment_at (payments w) _paymentId).
Definition getNumOfPayments : Tx N := gets numOfPayments.
Definition getBalance : Tx N :=
  self ← gets this;
  gets (λ w, checkLeaseToken self (leaseTokenContract w)).
Definition getOwner : Tx address := gets owner.
Definition getContractAddress : Tx address := gets this.
Definition getRentalMarketplaceAddress : Tx address := gets rentalMarketplaceAddress.
Definition getRentDisputeDAOAddress : Tx address := gets rentDisputeDAOAddress.

(** ** Transactions on the chain *)

Inductive Call :=
| CreatePayment (_payer _payee : address) (_amount : N)
| Pay (_paymentId : N)
| Release (_paymentId : N)
| Refund (_paymentId : N)
| WithdrawToken
| SetProtectionFee (_protectionFee : N)
| SetCommissionFee (_commissionFee : N)
| SetRentalMarketplaceAddress (a : address)
| SetRentDisputeDAOAddress (a : address).

Definition dispatch (c : Call) : Tx unit :=
  match c with
  | CreatePayment p q a => createPayment p q a;; mret tt
  | Pay id => pay id
  | Release id => release id
  | Refund id => refund id
  | WithdrawToken => withdrawToken
  | SetProtectionFee v => setProtectionFee v
  | SetCommissionFee v => setCommissionFee v
  | SetRentalMarketplaceAddress a => setRentalMarketplaceAddress a
  | SetRentDisputeDAOAddress a => setRentDisputeDAOAddress a
  end.

(** A transaction either commits the world it finished with or, on revert,
    leaves the world exactly as it was. *)
Definition transact (sender : address) (c : Call) (w : World) : World :=
  match dispatch c sender w with
  | Done _ w' => w'
  | Reverted _ _ => w
  end.

Fixpoint run (w : World) (cs : list (address * Call)) : World :=
  match cs with
  | [] => w
  | (sender, c) :: cs' => run (transact sender c w) cs'
  end.

(** The worlds the contract can be in: freshly deployed over any ledger
    state, one transaction later, or with the ledger moved on by its other
    users in between. *)
Inductive reachable : World → Prop :=
| reachable_deployed deployer self leaseToken pf cf :
    reachable (constructor deployer self leaseToken pf cf)
| reachable_transact sender c w :
    reachable w → reachable (transact sender c w)
| reachable_ledger l w :
    reachable w → reachable (upd_leaseTokenContract l w).

(** * Vocabulary of the specification *)

Definition status_of (w : World) (id : N) : PaymentStatus :=
  status (payment_at (payments w) id).

(** The world [pay] commits. *)
Definition paid (id : N) (l' : Ledger) (w : World) : World :=
  let r := payment_at (payments w) id in
  log (Emit (paymentPaid (payer r) (payee r) (amount r)))
    (store_status id PAID
       (upd_leaseTokenContract l'
          (log (ExternalCall (CallTransferFrom (this w) (payer r) (this w) (amount r)))
             (log (ExternalCall (CallApprove (payer r) (this w) (amount r))) w)))).

(** The world [release] commits, given the net amount and the ledger after
    the transfer. *)
Definition released (id : N) (net : N) (l' : Ledger) (w : World) : World :=
  let r := payment_at (payments w) id in
  log (Emit (paymentReleased (payer r) (payee r) (amount r)))
    (store_status id RELEASED
       (upd_leaseTokenContract l'
          (log (ExternalCall (CallTransfer (this w) (payee r) net)) w))).

(** The world [refund] commits. *)
Definition refunded (id : N) (l' : Ledger) (w : World) : World :=
  let r := payment_at (payments w) id in
  log (Emit (paymentRefunded (payer r) (payee r) (amount r)))
    (store_status id REFUNDED
       (upd_leaseTokenContract l'
          (log (ExternalCall (CallTransfer (this w) (payer r) (amount r))) w))).

(** The world [createPayment] commits. *)
Definition created (_payer _payee : address) (_amount : N) (w : World) : World :=
  log (Emit (paymentCreated _payer _payee _amount))
    (upd_numOfPayments (numOfPayments w + 1)
       (store_payment (numOfPayments w)
          {| payer := _payer; payee := _payee;
             amount := _amount; status := PENDING |} w)).

(** The world [withdrawToken] commits. *)
Definition withdrawn (l' : Ledger) (w : World) : World :=
  log (Emit (tokenWithdrawn (owner w) (checkLeaseToken (this w) l')))
    (upd_leaseTokenContract l'
       (log (ExternalCall
               (CallTransfer (this w) (owner w)
                  (checkLeaseToken (this w) (leaseTokenContract w)))) w)).

(** The edges of the state machine. *)
Inductive forward : PaymentStatus → PaymentStatus → Prop :=
| forward_pay : forward PENDING PAID
| forward_release : forward PAID RELEASED
| forward_refund : forward PAID REFUNDED.

Definition terminal (s : PaymentStatus) : Prop := s = RELEASED ∨ s = REFUNDED.

(** What one committed or reverted transaction does to an existing record:
    nothing, or one edge of the lifecycle with the parties and the amount
    kept. *)
Definition record_step (r r' : Payment) : Prop :=
  r' = r ∨
  (forward (status r) (status r') ∧
   payer r' = payer r ∧ payee r' = payee r ∧ amount r' = amount r).

(** The worlds a transaction can commit from [w]: one constructor per
    function of the contract, with what its guards have established. *)
Inductive commits (w : World) : World → Prop :=
| commits_created p q a :
    numOfPayments w + 1 ≤ uint256_max →
    commits w (created p q a w)
| commits_paid id l' :
    id < numOfPayments w → status_of w id = PENDING →
    commits w (paid id l' w)
| commits_released id net l' :
    id < numOfPayments w → status_of w id = PAID →
    commits w (released id net l' w)
| commits_refunded id l' :
    id < numOfPayments w → status_of w id = PAID →
    commits w (refunded id l' w)
| commits_withdrawn l' :
    commits w (withdrawn l' w)
| commits_protectionFee v :
    0 < v →
    commits w (log (Emit (protectionFeeSet v)) (upd_protectionFee v w))
| commits_commissionFee v :
    0 < v →
    commits w (log (Emit (commissionFeeSet v)) (upd_commissionFee v w))
| commits_rentalMarketplaceAddress a :
    a ≠ address_0 →
    commits w (log (Emit (rentalMarketplaceAddressSet a))
                 (upd_rentalMarketplaceAddress a w))
| commits_rentDisputeDAOAddress a :
    a ≠ address_0 →
    commits w (log (Emit (rentDisputeDAOAddressSet a))
                 (upd_rentDisputeDAOAddress a w)).

(** What a transaction appended to the trace. *)
Definition effects (w w' : World) : list Effect :=
  drop (length (trace w)) (trace w').

(** For every ledger call of a trace, the status record [id] has in storage
    at the moment the call is made, [s] being its status when the trace
    starts: what a call coming back into the contract from inside the ledger
    would read. *)
Fixpoint status_seen (id : N) (s : PaymentStatus) (tr : list Effect)
    : list (LedgerCall * PaymentStatus) :=
  match tr with
  | [] => []
  | ExternalCall c :: tr' => (c, s) :: status_seen id s tr'
  | StatusWrite id' s' :: tr' =>
      status_seen id (if decide (id' = id) then s' else s) tr'
  | Emit _ :: tr' => status_seen id s tr'
  end.

(** No record is stored at or beyond the payment count. *)
Definition fresh_above (w : World) : Prop :=
  ∀ id, numOfPayments w ≤ id → payments w !! id = None.

(** ** A worked history

    Owner 1 deploys the escrow at address 100 with protection fee 5 and
    commission fee 50 over a ledger where tenant 10 holds 1000 tokens, binds
    marketplace 2 and dispute authority 3; the marketplace then creates and
    funds a payment of 1000 to landlord 20. *)
Module Scenario.

Definition ledger0 : Ledger := {| balances := {[ 10 := 1000 ]}; allowances := ∅ |}.

Definition deployed : World := constructor 1 100 ledger0 5 50.

Definition configured : World :=
  run deployed [(1, SetRentalMarketplaceAddress 2);
                (1, SetRentDisputeDAOAddress 3)].

Definition w_pending : World := run configured [(2, CreatePayment 10 20 1000)].

Definition w_paid : World := run w_pending [(2, Pay 0)].

Definition w_released : World := run w_paid [(2, Release 0)].

Definition w_refunded : World := run w_paid [(3, Refund 0)].

(** A second history, with a payment of 10, less than the commission fee of
    50, created and funded. *)
Definition w_small_paid : World :=
  run configured [(2, CreatePayment 10 20 10); (2, Pay 0)].

End Scenario.



(** The calls that bind a role. *)
Definition binds_role (c : Call) : bool :=
  match c with
  | SetRentalMarketplaceAddress _ | SetRentDisputeDAOAddress _ => true
  | _ => false
  end.

(** * Verification *)

(** ** Reading the payment table *)

Lemma payment_at_insert_eq (m : gmap N Payment) id p :
  payment_at (<[id := p]> m) id = p.
Proof. unfold payment_at. by rewrite lookup_insert_eq. Qed.

Lemma payment_at_insert_ne (m : gmap N Payment) id id' p :
  id ≠ id' → payment_at (<[id := p]> m) id' = payment_at m id'.
Proof. intros. unfold payment_at. by rewrite lookup_insert_ne. Qed.

Lemma payment_at_absent (m : gmap N Payment) id :
  m !! id = None → payment_at m id = zero_payment.
Proof. intros H. unfold payment_at. by rewrite H. Qed.

(** ** Unfolding the transactions

    Each function is rewritten into the decision tree it computes; the
    theorems below are read off these equations. *)

Ltac tx_unfold :=
  unfold onlyOwner, onlyRentalMarketplace, onlyRentalMarketplaceOrRentDisputeDAO,
    checkSufficientBalance, PaymentExists, PaymentPending, PaymentPaid,
    invalidProtectionFee, invalidCommissionFee,
    invalidRentalMarketplaceAddress, invalidRentDisputeDAOAddress,
    write_status, write_payment, sload, emit, ledger_call, checked, require,
    modify, gets, msg_sender, mbind, mret, Tx_bind, Tx_ret in *.

Ltac tx_cases :=
  repeat
    (cbn in *;
     first
       [ case_bool_decide
       | match goal with
         | |- context [match ?o with Some _ => _ | None => _ end] =>
             destruct o eqn:?
         end ]);
  cbn in *; simplify_eq; try reflexivity;
  try (unfold store_status, store_payment; cbn;
       rewrite ?payment_at_insert_eq; cbn; reflexivity).

Lemma pay_eq id sender w :
  pay id sender w =
  let r := payment_at (payments w) id in
  if bool_decide (sender = rentalMarketplaceAddress w) then
    if bool_decide (id < numOfPayments w) then
      if bool_decide (status r = PENDING) then
        match approveLeaseToken (payer r) (this w) (amount r) (leaseTokenContract w) with
        | None =>
            Reverted LedgerReverted
              (log (ExternalCall (CallApprove (payer r) (this w) (amount r))) w)
        | Some l1 =>
            match transferLeaseTokenFrom (this w) (payer r) (this w) (amount r) l1 with
            | None =>
                Reverted LedgerReverted
                  (log (ExternalCall (CallTransferFrom (this w) (payer r) (this w) (amount r)))
                     (upd_leaseTokenContract l1
                        (log (ExternalCall (CallApprove (payer r) (this w) (amount r))) w)))
            | Some l2 => Done tt (paid id l2 w)
            end
        end
      else Reverted PaymentAlreadyMade w
    else Reverted PaymentDoesNotExist w
  else Reverted OnlyRentalMarketplace w.
Proof.
  unfold pay, paid. tx_unfold. cbn.
  tx_cases.
Qed.

Lemma release_eq id sender w :
  release id sender w =
  let r := payment_at (payments w) id in
  if bool_decide (sender = rentalMarketplaceAddress w) then
    if bool_decide (id < numOfPayments w) then
      if bool_decide (status r = PAID) then
        match checked_sub (amount r) (commissionFee w) with
        | None => Reverted Panic_0x11 w
        | Some net =>
            match transferLeaseToken (this w) (payee r) net (leaseTokenContract w) with
            | None =>
                Reverted LedgerReverted
                  (log (ExternalCall (CallTransfer (this w) (payee r) net)) w)
            | Some l' => Done tt (released id net l' w)
            end
        end
      else Reverted PaymentNotMadeYet w
    else Reverted PaymentDoesNotExist w
  else Reverted OnlyRentalMarketplace w.
Proof.
  unfold release, released. tx_unfold. tx_cases.
Qed.

Lemma refund_eq id sender w :
  refund id sender w =
  let r := payment_at (payments w) id in
  if bool_decide (sender = rentalMarketplaceAddress w)
     || bool_decide (sender = rentDisputeDAOAddress w) then
    if bool_decide (id < numOfPayments w) then
      if bool_decide (status r = PAID) then
        match transferLeaseToken (this w) (payer r) (amount r) (leaseTokenContract w) with
        | None =>
            Reverted LedgerReverted
              (log (ExternalCall (CallTransfer (this w) (payer r) (amount r))) w)
        | Some l' => Done tt (refunded id l' w)
        end
      else Reverted PaymentNotMadeYet w
    else Reverted PaymentDoesNotExist w
  else Reverted OnlyRentalMarketplaceOrRentDisputeDAO w.
Proof.
  unfold refund, refunded. tx_unfold. cbn.
  destruct (bool_decide (sender = rentalMarketplaceAddress w)
            || bool_decide (sender = rentDisputeDAOAddress w)); tx_cases.
Qed.

Lemma createPayment_eq _payer _payee _amount sender w :
  createPayment _payer _payee _amount sender w =
  if bool_decide (sender = rentalMarketplaceAddress w)
     || bool_decide (sender = rentDisputeDAOAddress w) then
    if bool_decide (_amount ≤ checkLeaseToken _payer (leaseTokenContract w)) then
      if decide (numOfPayments w + 1 ≤ uint256_max) then
        Done (numOfPayments w) (created _payer _payee _amount w)
      else
        Reverted Panic_0x11
          (store_payment (numOfPayments w)
             {| payer := _payer; payee := _payee;
                amount := _amount; status := PENDING |} w)
    else Reverted PayerNotEnoughBalance w
  else Reverted OnlyRentalMarketplaceOrRentDisputeDAO w.
Proof.
  unfold createPayment, created. tx_unfold. cbn.
  destruct (bool_decide (sender = rentalMarketplaceAddress w)
            || bool_decide (sender = rentDisputeDAOAddress w)); cbn; [|done].
  case_bool_decide; cbn; [|done].
  unfold checked_add. case_decide; cbn; [|done].
  unfold checked_sub. case_decide; [|lia].
  f_equal. lia.
Qed.

Lemma withdrawToken_eq sender w :
  withdrawToken sender w =
  let bal := checkLeaseToken (this w) (leaseTokenContract w) in
  if bool_decide (sender = owner w) then
    match transferLeaseToken (this w) (owner w) bal (leaseTokenContract w) with
    | None =>
        Reverted LedgerReverted
          (log (ExternalCall (CallTransfer (this w) (owner w) bal)) w)
    | Some l' => Done tt (withdrawn l' w)
    end
  else Reverted OnlyOwner w.
Proof.
  unfold withdrawToken, withdrawn. tx_unfold. tx_cases.
Qed.

Lemma setProtectionFee_eq v sender w :
  setProtectionFee v sender w =
  if bool_decide (sender = owner w) then
    if bool_decide (0 < v) then
      Done tt (log (Emit (protectionFeeSet v)) (upd_protectionFee v w))
    else Reverted ProtectionFeeNotPositive w
  else Reverted OnlyOwner w.
Proof. unfold setProtectionFee. tx_unfold. tx_cases. Qed.

Lemma setCommissionFee_eq v sender w :
  setCommissionFee v sender w =
  if bool_decide (sender = owner w) then
    if bool_decide (0 < v) then
      Done tt (log (Emit (commissionFeeSet v)) (upd_commissionFee v w))
    else Reverted CommissionFeeNotPositive w
  else Reverted OnlyOwner w.
Proof. unfold setCommissionFee. tx_unfold. tx_cases. Qed.

Lemma setRentalMarketplaceAddress_eq a sender w :
  setRentalMarketplaceAddress a sender w =
  if bool_decide (sender = owner w) then
    if bool_decide (a ≠ address_0) then
      Done tt (log (Emit (rentalMarketplaceAddressSet a))
                 (upd_rentalMarketplaceAddress a w))
    else Reverted InvalidRentalMarketplaceAddress w
  else Reverted OnlyOwner w.
Proof. unfold setRentalMarketplaceAddress. tx_unfold. tx_cases. Qed.

Lemma setRentDisputeDAOAddress_eq a sender w :
  setRentDisputeDAOAddress a sender w =
  if bool_decide (sender = owner w) then
    if bool_decide (a ≠ address_0) then
      Done tt (log (Emit (rentDisputeDAOAddressSet a))
                 (upd_rentDisputeDAOAddress a w))
    else Reverted InvalidRentDisputeDAOAddress w
  else Reverted OnlyOwner w.
Proof. unfold setRentDisputeDAOAddress. tx_unfold. tx_cases. Qed.

(** ** The payment lifecycle *)

Lemma terminal_no_edge s s' : terminal s → ¬ forward s s'.
Proof. intros [-> | ->] H; inversion H. Qed.

Lemma payment_at_store_status id0 s w id :
  payment_at (payments (store_status id0 s w)) id =
  if decide (id0 = id)
  then {| payer := payer (payment_at (payments w) id);
          payee := payee (payment_at (payments w) id);
          amount := amount (payment_at (payments w) id); status := s |}
  else payment_at (payments w) id.
Proof.
  unfold store_status; cbn. case_decide.
  - subst. by rewrite payment_at_insert_eq.
  - by rewrite payment_at_insert_ne.
Qed.

Lemma store_status_step id0 s w0 w id :
  payments w = payments w0 →
  forward (status_of w0 id0) s →
  record_step (payment_at (payments w0) id)
              (payment_at (payments (store_status id0 s w)) id).
Proof.
  intros Hp Hf. rewrite payment_at_store_status, Hp. case_decide.
  - subst. right. cbn. done.
  - by left.
Qed.

(** Every transaction either leaves the world as it was or commits one of
    the worlds of [commits]. *)
Lemma transact_inv sender c w :
  transact sender c w = w ∨ commits w (transact sender c w).
Proof.
  unfold transact, dispatch.
  destruct c as [p q a|id0|id0|id0| |v|v|a|a].
  - unfold mbind, mret, Tx_bind, Tx_ret. rewrite createPayment_eq.
    destruct (_ || _); [|by left]. case_bool_decide; [|by left].
    case_decide; [|by left]. right. by apply commits_created.
  - rewrite pay_eq; cbn. repeat (case_bool_decide; [|by left]).
    destruct (approveLeaseToken _ _ _ _); [|by left].
    destruct (transferLeaseTokenFrom _ _ _ _ _); [|by left].
    right. by apply commits_paid.
  - rewrite release_eq; cbn. repeat (case_bool_decide; [|by left]).
    destruct (checked_sub _ _); [|by left].
    destruct (transferLeaseToken _ _ _ _); [|by left].
    right. by apply commits_released.
  - rewrite refund_eq; cbn. destruct (_ || _); [|by left].
    repeat (case_bool_decide; [|by left]).
    destruct (transferLeaseToken _ _ _ _); [|by left].
    right. by apply commits_refunded.
  - rewrite withdrawToken_eq; cbn. case_bool_decide; [|by left].
    destruct (transferLeaseToken _ _ _ _); [|by left].
    right. apply commits_withdrawn.
  - rewrite setProtectionFee_eq. repeat (case_bool_decide; [|by left]).
    right. by apply commits_protectionFee.
  - rewrite setCommissionFee_eq. repeat (case_bool_decide; [|by left]).
    right. by apply commits_commissionFee.
  - rewrite setRentalMarketplaceAddress_eq.
    repeat (case_bool_decide; [|by left]).
    right. by apply commits_rentalMarketplaceAddress.
  - rewrite setRentDisputeDAOAddress_eq.
    repeat (case_bool_decide; [|by left]).
    right. by apply commits_rentDisputeDAOAddress.
Qed.

Lemma commits_record w w' id :
  commits w w' → id < numOfPayments w →
  record_step (payment_at (payments w) id) (payment_at (payments w') id).
Proof.
  destruct 1 as [p q a Hroom|id0 l' Hid0 Hst|id0 net l' Hid0 Hst|id0 l' Hid0 Hst
                | | | | | ]; intros Hid; try by left.
  - unfold created, store_payment; cbn.
    rewrite payment_at_insert_ne by lia. by left.
  - unfold paid; cbn -[store_status]. apply store_status_step; [done|].
    rewrite Hst. constructor.
  - unfold released; cbn -[store_status]. apply store_status_step; [done|].
    rewrite Hst. constructor.
  - unfold refunded; cbn -[store_status]. apply store_status_step; [done|].
    rewrite Hst. constructor.
Qed.

Lemma commits_numOfPayments w w' :
  commits w w' → numOfPayments w ≤ numOfPayments w'.
Proof. destruct 1; cbn; lia. Qed.

Lemma transact_record sender c w id :
  id < numOfPayments w →
  record_step (payment_at (payments w) id)
              (payment_at (payments (transact sender c w)) id).
Proof.
  destruct (transact_inv sender c w) as [-> | H]; [by left|].
  by apply commits_record.
Qed.

Lemma transact_numOfPayments sender c w :
  numOfPayments w ≤ numOfPayments (transact sender c w).
Proof.
  destruct (transact_inv sender c w) as [-> | H]; [done|].
  by apply commits_numOfPayments.
Qed.

(** Over a whole sequence of transactions a record only walks along the
    edges, keeps its parties and amount, and stays put once terminal. *)
Lemma run_record cs : ∀ w id,
  id < numOfPayments w →
  let r := payment_at (payments w) id in
  let r' := payment_at (payments (run w cs)) id in
  rtc forward (status r) (status r') ∧
  payer r' = payer r ∧ payee r' = payee r ∧ amount r' = amount r ∧
  (terminal (status r) → r' = r).
Proof.
  induction cs as [|[sender c] cs IH]; intros w id Hid; cbn.
  - repeat split; auto. apply rtc_refl.
  - pose proof (transact_numOfPayments sender c w) as Hn.
    pose proof (transact_record sender c w id Hid) as Hs.
    destruct (IH (transact sender c w) id ltac:(lia)) as (Hr & Hp & Hq & Ha & Ht).
    destruct Hs as [Heq | (Hf & Hp' & Hq' & Ha')].
    + rewrite Heq in *. repeat split; auto.
    + repeat split; try congruence.
      * eapply rtc_l; eauto.
      * intros Hterm. by destruct (terminal_no_edge _ _ Hterm Hf).
Qed.

Lemma reachable_run w cs : reachable w → reachable (run w cs).
Proof.
  revert w. induction cs as [|[sender c] cs IH]; intros w Hw; cbn; [done|].
  apply IH. by constructor.
Qed.

(** ** The worked history, evaluated *)

Lemma reachable_w_paid : reachable Scenario.w_paid.
Proof. repeat apply reachable_run. constructor. Qed.

Lemma reachable_w_released : reachable Scenario.w_released.
Proof. apply reachable_run, reachable_w_paid. Qed.

Lemma reachable_w_refunded : reachable Scenario.w_refunded.
Proof. apply reachable_run, reachable_w_paid. Qed.

Example w_paid_record :
  payments Scenario.w_paid !! 0 =
  Some {| payer := 10; payee := 20; amount := 1000; status := PAID |}.
Proof. vm_compute. reflexivity. Qed.

Example w_paid_balances :
  checkLeaseToken 100 (leaseTokenContract Scenario.w_paid) = 1000 ∧
  checkLeaseToken 10 (leaseTokenContract Scenario.w_paid) = 0.
Proof. vm_compute. done. Qed.

Example w_released_balances :
  status_of Scenario.w_released 0 = RELEASED ∧
  checkLeaseToken 100 (leaseTokenContract Scenario.w_released) = 50 ∧
  checkLeaseToken 20 (leaseTokenContract Scenario.w_released) = 950.
Proof. vm_compute. done. Qed.

Example w_refunded_balances :
  status_of Scenario.w_refunded 0 = REFUNDED ∧
  checkLeaseToken 100 (leaseTokenContract Scenario.w_refunded) = 0 ∧
  checkLeaseToken 10 (leaseTokenContract Scenario.w_refunded) = 1000.
Proof. vm_compute. done. Qed.

(** C1.  For every existing payment record and every sequence of
    transactions the status only moves along
    PENDING -> PAID -> RELEASED or REFUNDED, with payer, payee and amount
    kept, and a terminal record is never changed again; [pay] succeeds only
    on a PENDING record, [release] and [refund] only on a PAID one; a call
    aimed at a terminal record is always rejected and leaves the world as it
    was: from a caller the function's role gate admits the rejection is
    InvalidState (a caller the gate does not admit is stopped by the gate,
    which is checked first, with Unauthorized). *)
Theorem payment_status_lifecycle (w : World) (id : N) :
  id < numOfPayments w →
  (∀ cs,
     let r := payment_at (payments w) id in
     let r' := payment_at (payments (run w cs)) id in
     rtc forward (status r) (status r') ∧
     payer r' = payer r ∧ payee r' = payee r ∧ amount r' = amount r ∧
     (terminal (status r) → r' = r)) ∧
  (∀ sender w', pay id sender w = Done tt w' →
     status_of w id = PENDING ∧ status_of w' id = PAID) ∧
  (∀ sender w', release id sender w = Done tt w' →
     status_of w id = PAID ∧ status_of w' id = RELEASED) ∧
  (∀ sender w', refund id sender w = Done tt w' →
     status_of w id = PAID ∧ status_of w' id = REFUNDED) ∧
  (terminal (status_of w id) → ∀ sender,
     (∃ f, pay id sender w = Reverted f w ∧
           kind f = Some (if bool_decide (sender = rentalMarketplaceAddress w)
                          then InvalidState else Unauthorized)) ∧
     (∃ f, release id sender w = Reverted f w ∧
           kind f = Some (if bool_decide (sender = rentalMarketplaceAddress w)
                          then InvalidState else Unauthorized)) ∧
     (∃ f, refund id sender w = Reverted f w ∧
           kind f = Some (if bool_decide (sender = rentalMarketplaceAddress w)
                             || bool_decide (sender = rentDisputeDAOAddress w)
                          then InvalidState else Unauthorized))).
Proof.
  intros Hid. split; [intros cs; by apply run_record|].
  split; [|split; [|split]].
  - intros sender w'. rewrite pay_eq; cbn.
    repeat (case_bool_decide; [|done]).
    destruct (approveLeaseToken _ _ _ _); [|done].
    destruct (transferLeaseTokenFrom _ _ _ _ _); [|done].
    intros [= <-]. split; [done|].
    unfold status_of, paid. cbn -[store_status].
    rewrite payment_at_store_status. by case_decide.
  - intros sender w'. rewrite release_eq; cbn.
    repeat (case_bool_decide; [|done]).
    destruct (checked_sub _ _); [|done].
    destruct (transferLeaseToken _ _ _ _); [|done].
    intros [= <-]. split; [done|].
    unfold status_of, released. cbn -[store_status].
    rewrite payment_at_store_status. by case_decide.
  - intros sender w'. rewrite refund_eq; cbn.
    destruct (_ || _); [|done].
    repeat (case_bool_decide; [|done]).
    destruct (transferLeaseToken _ _ _ _); [|done].
    intros [= <-]. split; [done|].
    unfold status_of, refunded. cbn -[store_status].
    rewrite payment_at_store_status. by case_decide.
  - unfold status_of. intros Hterm sender.
    rewrite pay_eq, release_eq, refund_eq; cbn.
    rewrite (bool_decide_eq_true_2 _ Hid).
    assert (bool_decide (status (payment_at (payments w) id) = PENDING) = false
            ∧ bool_decide (status (payment_at (payments w) id) = PAID) = false)
      as [-> ->].
    { split; apply bool_decide_eq_false_2; destruct Hterm; congruence. }
    split; [|split].
    + case_bool_decide; eexists; split; done.
    + case_bool_decide; eexists; split; done.
    + destruct (_ || _); eexists; split; done.
Qed.

(** The theorem applied to the released payment of the worked history: a
    later refund and pay leave the record as it is, and the marketplace's
    second release is rejected with InvalidState. *)
Lemma payment_status_lifecycle_witness :
  0 < numOfPayments Scenario.w_released ∧
  terminal (status_of Scenario.w_released 0) ∧
  payment_at (payments (run Scenario.w_released [(3, Refund 0); (2, Pay 0)])) 0
  = payment_at (payments Scenario.w_released) 0 ∧
  ∃ f, release 0 2 Scenario.w_released = Reverted f Scenario.w_released ∧
       kind f = Some InvalidState.
Proof.
  assert (0 < numOfPayments Scenario.w_released) as Hid by (vm_compute; done).
  assert (terminal (status_of Scenario.w_released 0)) as Ht by (left; vm_compute; done).
  assert (2 = rentalMarketplaceAddress Scenario.w_released) as Hm
    by (vm_compute; reflexivity).
  split; [exact Hid|]. split; [exact Ht|].
  destruct (payment_status_lifecycle Scenario.w_released 0 Hid)
    as (Hseq & _ & _ & _ & Hrej).
  destruct (Hseq [(3, Refund 0); (2, Pay 0)]) as (_ & _ & _ & _ & Hfix).
  split; [exact (Hfix Ht)|].
  destruct (Hrej Ht 2) as (_ & (f & Hf & Hk) & _).
  rewrite (bool_decide_eq_true_2 _ Hm) in Hk.
  exists f. exact (conj Hf Hk).
Defined.

(** The role gate comes before the state guard: a caller that is not the
    marketplace, aiming [release] at a RELEASED record, is turned away by
    the gate with Unauthorized and never reaches the state guard. *)
Lemma release_on_terminal_by_stranger :
  reachable Scenario.w_released ∧
  0 < numOfPayments Scenario.w_released ∧
  status_of Scenario.w_released 0 = RELEASED ∧
  release 0 7 Scenario.w_released
  = Reverted OnlyRentalMarketplace Scenario.w_released ∧
  kind OnlyRentalMarketplace = Some Unauthorized ∧
  kind OnlyRentalMarketplace ≠ Some InvalidState.
Proof.
  split; [apply reachable_w_released|].
  repeat split; try (vm_compute; done).
Qed.

(** ** What a transfer does to the balances *)

Lemma checked_sub_Some a b c : checked_sub a b = Some c → b ≤ a ∧ c = a - b.
Proof. unfold checked_sub. case_decide; naive_solver. Qed.

Lemma checked_add_Some a b c :
  checked_add a b = Some c → a + b ≤ uint256_max ∧ c = a + b.
Proof. unfold checked_add. case_decide; naive_solver. Qed.

Lemma transferLeaseToken_balances sender recipient value l l' :
  transferLeaseToken sender recipient value l = Some l' →
  value ≤ checkLeaseToken sender l ∧
  allowances l' = allowances l ∧
  (∀ other, other ≠ sender → other ≠ recipient →
     checkLeaseToken other l' = checkLeaseToken other l) ∧
  (sender ≠ recipient →
     checkLeaseToken sender l' = checkLeaseToken sender l - value ∧
     checkLeaseToken recipient l' = checkLeaseToken recipient l + value) ∧
  (sender = recipient → checkLeaseToken sender l' = checkLeaseToken sender l).
Proof.
  unfold transferLeaseToken, checkLeaseToken.
  destruct (checked_sub _ _) as [rest|] eqn:Hs; [|done].
  destruct (checked_add _ _) as [total|] eqn:Ha; [|done].
  intros [= <-]; cbn.
  apply checked_sub_Some in Hs as [Hle ->].
  apply checked_add_Some in Ha as [_ ->].
  split; [done|]. split; [done|]. split; [|split].
  - intros other H1 H2. by rewrite !lookup_insert_ne.
  - intros Hne. rewrite lookup_insert_eq.
    rewrite (lookup_insert_ne _ recipient sender) by done.
    rewrite lookup_insert_eq. rewrite lookup_insert_ne by done. done.
  - intros <-. rewrite !lookup_insert_eq. cbn. lia.
Qed.

(** C2.  A successful [release] of a payment of amount A under the
    commission fee F stored at the moment of the call finds the record PAID,
    makes exactly one ledger call, the transfer of A - F from the escrow to
    the payee, so that the escrow's balance falls by A - F (F of the A it
    held stays behind) and the payee's rises by A - F, and leaves the record
    RELEASED with its other fields kept. *)
Theorem release_pays_net_amount (w w' : World) (sender id : N) :
  release id sender w = Done tt w' →
  let r := payment_at (payments w) id in
  let A := amount r in
  let F := commissionFee w in
  status r = PAID ∧ F ≤ A ∧
  transferLeaseToken (this w) (payee r) (A - F) (leaseTokenContract w)
    = Some (leaseTokenContract w') ∧
  trace w' = trace w ++ [ExternalCall (CallTransfer (this w) (payee r) (A - F));
                         StatusWrite id RELEASED;
                         Emit (paymentReleased (payer r) (payee r) A)] ∧
  payment_at (payments w') id
    = {| payer := payer r; payee := payee r; amount := A; status := RELEASED |} ∧
  commissionFee w' = F ∧
  (payee r ≠ this w →
     checkLeaseToken (this w) (leaseTokenContract w')
       = checkLeaseToken (this w) (leaseTokenContract w) - (A - F) ∧
     A - F ≤ checkLeaseToken (this w) (leaseTokenContract w) ∧
     checkLeaseToken (this w) (leaseTokenContract w') + A
       = checkLeaseToken (this w) (leaseTokenContract w) + F ∧
     checkLeaseToken (payee r) (leaseTokenContract w')
       = checkLeaseToken (payee r) (leaseTokenContract w) + (A - F)).
Proof.
  rewrite release_eq; cbn.
  repeat (case_bool_decide; [|done]).
  destruct (checked_sub _ _) as [net|] eqn:Hs; [|done].
  destruct (transferLeaseToken _ _ _ _) as [l'|] eqn:Ht; [|done].
  intros [= <-].
  apply checked_sub_Some in Hs as [Hle ->].
  split; [done|]. split; [done|]. split; [done|].
  split. { unfold released, store_status; cbn. by rewrite <- !app_assoc. }
  split. { unfold released. cbn -[store_status].
           rewrite payment_at_store_status. by case_decide. }
  split; [done|].
  intros Hne. cbn.
  destruct (transferLeaseToken_balances _ _ _ _ _ Ht) as (Hbal & _ & _ & Hmove & _).
  destruct (Hmove ltac:(congruence)) as [Hfrom Hto].
  rewrite Hfrom, Hto. repeat split; lia.
Qed.

(** The theorem applied to the worked history after the owner has raised
    the commission fee from 50 to 80: the payee receives 920, not 950. *)
Lemma release_pays_net_amount_witness :
  let w := run Scenario.w_paid [(1, SetCommissionFee 80)] in
  let w' := transact 2 (Release 0) w in
  release 0 2 w = Done tt w' ∧
  checkLeaseToken 20 (leaseTokenContract w') = 920 ∧
  checkLeaseToken 100 (leaseTokenContract w') = 80.
Proof.
  set (w := run Scenario.w_paid [(1, SetCommissionFee 80)]).
  set (w' := transact 2 (Release 0) w).
  assert (release 0 2 w = Done tt w') as Hrun by (vm_compute; reflexivity).
  split; [exact Hrun|].
  destruct (release_pays_net_amount w w' 2 0 Hrun)
    as (_ & _ & _ & _ & _ & _ & Hbal).
  destruct Hbal as (Hescrow & _ & _ & Hpayee); [vm_compute; done|].
  split.
  - etransitivity; [exact Hpayee|]. vm_compute. reflexivity.
  - etransitivity; [exact Hescrow|]. vm_compute. reflexivity.
Defined.

(** C3.  A successful [refund] finds the record PAID, makes exactly one
    ledger call, the transfer of the full recorded amount from the escrow to
    the payer, whatever the fees are, and leaves the record REFUNDED with its
    other fields kept. *)
Theorem refund_returns_full_amount (w w' : World) (sender id : N) :
  refund id sender w = Done tt w' →
  let r := payment_at (payments w) id in
  status r = PAID ∧
  transferLeaseToken (this w) (payer r) (amount r) (leaseTokenContract w)
    = Some (leaseTokenContract w') ∧
  trace w' = trace w ++ [ExternalCall (CallTransfer (this w) (payer r) (amount r));
                         StatusWrite id REFUNDED;
                         Emit (paymentRefunded (payer r) (payee r) (amount r))] ∧
  payment_at (payments w') id
    = {| payer := payer r; payee := payee r; amount := amount r;
         status := REFUNDED |} ∧
  (payer r ≠ this w →
     checkLeaseToken (this w) (leaseTokenContract w')
       = checkLeaseToken (this w) (leaseTokenContract w) - amount r ∧
     amount r ≤ checkLeaseToken (this w) (leaseTokenContract w) ∧
     checkLeaseToken (payer r) (leaseTokenContract w')
       = checkLeaseToken (payer r) (leaseTokenContract w) + amount r).
Proof.
  rewrite refund_eq; cbn.
  destruct (_ || _); [|done].
  repeat (case_bool_decide; [|done]).
  destruct (transferLeaseToken _ _ _ _) as [l'|] eqn:Ht; [|done].
  intros [= <-].
  split; [done|]. split; [done|].
  split. { unfold refunded, store_status; cbn. by rewrite <- !app_assoc. }
  split. { unfold refunded. cbn -[store_status].
           rewrite payment_at_store_status. by case_decide. }
  intros Hne. cbn.
  destruct (transferLeaseToken_balances _ _ _ _ _ Ht) as (Hbal & _ & _ & Hmove & _).
  destruct (Hmove ltac:(congruence)) as [Hfrom Hto].
  rewrite Hfrom, Hto. repeat split; lia.
Qed.

(** The theorem applied to the worked history with both fees raised before
    the dispute authority refunds: the payer still gets the whole 1000. *)
Lemma refund_returns_full_amount_witness :
  let w := run Scenario.w_paid [(1, SetCommissionFee 80); (1, SetProtectionFee 9)] in
  let w' := transact 3 (Refund 0) w in
  refund 0 3 w = Done tt w' ∧
  status_of w' 0 = REFUNDED ∧
  checkLeaseToken 10 (leaseTokenContract w') = 1000 ∧
  checkLeaseToken 100 (leaseTokenContract w') = 0.
Proof.
  set (w := run Scenario.w_paid [(1, SetCommissionFee 80); (1, SetProtectionFee 9)]).
  set (w' := transact 3 (Refund 0) w).
  assert (refund 0 3 w = Done tt w') as Hrun by (vm_compute; reflexivity).
  split; [exact Hrun|].
  destruct (refund_returns_full_amount w w' 3 0 Hrun) as (_ & _ & _ & Hrec & Hbal).
  split. { exact (f_equal status Hrec). }
  destruct Hbal as (Hescrow & _ & Hpayer); [vm_compute; done|].
  split.
  - etransitivity; [exact Hpayer|]. vm_compute. reflexivity.
  - etransitivity; [exact Hescrow|]. vm_compute. reflexivity.
Defined.

(** ** The role gate *)

(** C4.  A caller other than the bound marketplace address is rejected by
    [pay] and by [release] with Unauthorized, before anything is read or
    done: the world at the abort and the world after the transaction are the
    world before it, so the record and the payment count are untouched.
    [refund] lets the marketplace address and the dispute authority address
    through alike (and nobody else): from either, a refund of an existing
    PAID record that the ledger can honour succeeds. *)
Theorem role_gate (w : World) (id : N) :
  (∀ sender, sender ≠ rentalMarketplaceAddress w →
     pay id sender w = Reverted OnlyRentalMarketplace w ∧
     release id sender w = Reverted OnlyRentalMarketplace w ∧
     kind OnlyRentalMarketplace = Some Unauthorized ∧
     transact sender (Pay id) w = w ∧
     transact sender (Release id) w = w) ∧
  (∀ sender,
     sender = rentalMarketplaceAddress w ∨ sender = rentDisputeDAOAddress w →
     (∀ f w', refund id sender w = Reverted f w' → kind f ≠ Some Unauthorized) ∧
     (id < numOfPayments w →
      status_of w id = PAID →
      ∀ l', transferLeaseToken (this w) (payer (payment_at (payments w) id))
              (amount (payment_at (payments w) id)) (leaseTokenContract w) = Some l' →
      refund id sender w = Done tt (refunded id l' w))) ∧
  (∀ sender,
     sender ≠ rentalMarketplaceAddress w → sender ≠ rentDisputeDAOAddress w →
     refund id sender w = Reverted OnlyRentalMarketplaceOrRentDisputeDAO w).
Proof.
  split; [|split].
  - intros sender Hne. unfold transact, dispatch.
    rewrite pay_eq, release_eq; cbn.
    rewrite (bool_decide_eq_false_2 _ Hne). done.
  - intros sender Hrole.
    assert (bool_decide (sender = rentalMarketplaceAddress w)
            || bool_decide (sender = rentDisputeDAOAddress w) = true) as Hgate.
    { destruct Hrole as [H|H]; rewrite (bool_decide_eq_true_2 _ H); cbn; [done|].
      by destruct (bool_decide _). }
    split.
    + intros f w'. rewrite refund_eq; cbn. rewrite Hgate.
      clear Hgate Hrole.
      repeat case_bool_decide; try (intros [= <- _]; done).
      destruct (transferLeaseToken _ _ _ _); [done|]. by intros [= <- _].
    + intros Hid Hpaid l' Hl. rewrite refund_eq; cbn. rewrite Hgate.
      rewrite (bool_decide_eq_true_2 _ Hid).
      unfold status_of in Hpaid. rewrite (bool_decide_eq_true_2 _ Hpaid).
      by rewrite Hl.
  - intros sender H1 H2. rewrite refund_eq; cbn.
    by rewrite (bool_decide_eq_false_2 _ H1), (bool_decide_eq_false_2 _ H2).
Qed.

(** The theorem applied to the funded payment of the worked history: a
    stranger (7) cannot release it, the dispute authority (3) can refund it. *)
Lemma role_gate_witness :
  7 ≠ rentalMarketplaceAddress Scenario.w_paid ∧
  3 = rentDisputeDAOAddress Scenario.w_paid ∧
  release 0 7 Scenario.w_paid = Reverted OnlyRentalMarketplace Scenario.w_paid ∧
  transact 7 (Release 0) Scenario.w_paid = Scenario.w_paid ∧
  (∀ f w', refund 0 3 Scenario.w_paid = Reverted f w' → kind f ≠ Some Unauthorized).
Proof.
  assert (7 ≠ rentalMarketplaceAddress Scenario.w_paid) as Hne by (vm_compute; done).
  assert (3 = rentDisputeDAOAddress Scenario.w_paid) as Hdao by (vm_compute; done).
  destruct (role_gate Scenario.w_paid 0) as (Hgate & Hrefund & _).
  destruct (Hgate 7 Hne) as (_ & Hrel & _ & _ & Htx).
  destruct (Hrefund 3 (or_intror Hdao)) as [Hkind _].
  exact (conj Hne (conj Hdao (conj Hrel (conj Htx Hkind)))).
Defined.

(** ** Creating a payment *)

(** C5 (as the contract has it).  [createPayment] checks the caller's role
    and that the payer's ledger balance covers the amount, and nothing else
    about the amount: zero is accepted.  When the balance is below the amount
    the call is rejected with the world untouched, so no record is appended
    and the count is unchanged.  A successful call returns the old count as
    the new id, stores there a PENDING record with the given payer, payee and
    amount, raises the count by one and touches neither the other records nor
    the ledger; and the call does succeed whenever the role, the balance and
    the counter's range allow it. *)
Theorem createPayment_spec (w : World) (sender _payer _payee : N) (_amount : N) :
  (checkLeaseToken _payer (leaseTokenContract w) < _amount →
     (∃ f, createPayment _payer _payee _amount sender w = Reverted f w) ∧
     transact sender (CreatePayment _payer _payee _amount) w = w) ∧
  (∀ id w', createPayment _payer _payee _amount sender w = Done id w' →
     (sender = rentalMarketplaceAddress w ∨ sender = rentDisputeDAOAddress w) ∧
     _amount ≤ checkLeaseToken _payer (leaseTokenContract w) ∧
     id = numOfPayments w ∧
     numOfPayments w' = numOfPayments w + 1 ∧
     payment_at (payments w') id
       = {| payer := _payer; payee := _payee; amount := _amount; status := PENDING |} ∧
     (∀ id', id' ≠ id → payment_at (payments w') id' = payment_at (payments w) id') ∧
     leaseTokenContract w' = leaseTokenContract w) ∧
  (sender = rentalMarketplaceAddress w ∨ sender = rentDisputeDAOAddress w →
   _amount ≤ checkLeaseToken _payer (leaseTokenContract w) →
   numOfPayments w + 1 ≤ uint256_max →
   createPayment _payer _payee _amount sender w
     = Done (numOfPayments w) (created _payer _payee _amount w)).
Proof.
  split; [|split].
  - intros Hlt. unfold transact, dispatch, mbind, mret, Tx_bind, Tx_ret.
    rewrite createPayment_eq.
    assert (bool_decide (_amount ≤ checkLeaseToken _payer (leaseTokenContract w)) = false)
      as -> by (apply bool_decide_eq_false_2; lia).
    destruct (_ || _); eauto.
  - intros id w'. rewrite createPayment_eq.
    destruct (bool_decide (sender = rentalMarketplaceAddress w)
              || bool_decide (sender = rentDisputeDAOAddress w)) eqn:Hgate; [|done].
    apply orb_true_iff in Hgate. rewrite !bool_decide_eq_true in Hgate.
    case_bool_decide; [|done]. case_decide; [|done].
    intros [= <- <-]. unfold created, store_payment; cbn.
    rewrite payment_at_insert_eq. repeat split; try done.
    intros id' Hne. by rewrite payment_at_insert_ne.
  - intros Hrole Hbal Hroom. rewrite createPayment_eq.
    assert (bool_decide (sender = rentalMarketplaceAddress w)
            || bool_decide (sender = rentDisputeDAOAddress w) = true) as ->.
    { destruct Hrole as [H|H]; rewrite (bool_decide_eq_true_2 _ H); cbn; [done|].
      by destruct (bool_decide _). }
    rewrite (bool_decide_eq_true_2 _ Hbal). by case_decide.
Qed.

(** The theorem applied to the worked history: the tenant holds 1000, so a
    payment of 1001 is refused and one of 1000 is recorded under id 0. *)
Lemma createPayment_spec_witness :
  transact 2 (CreatePayment 10 20 1001) Scenario.configured = Scenario.configured ∧
  createPayment 10 20 1000 2 Scenario.configured
    = Done 0 (created 10 20 1000 Scenario.configured).
Proof.
  split.
  - destruct (createPayment_spec Scenario.configured 2 10 20 1001) as [Hrej _].
    destruct Hrej as [_ Htx]; [vm_compute; done|]. exact Htx.
  - destruct (createPayment_spec Scenario.configured 2 10 20 1000) as (_ & _ & Hok).
    apply Hok; [left; vm_compute; done|vm_compute; by intros [=]|vm_compute; by intros [=]].
Defined.

(** C5, as stated, fails: the funding check does not imply a positive
    amount.  The marketplace creates a payment of amount 0 for a payer (11)
    who holds nothing, and the call succeeds and appends the record. *)
Lemma createPayment_accepts_zero_amount :
  checkLeaseToken 11 (leaseTokenContract Scenario.configured) = 0 ∧
  createPayment 11 20 0 2 Scenario.configured
    = Done 0 (created 11 20 0 Scenario.configured) ∧
  numOfPayments (created 11 20 0 Scenario.configured) = 1 ∧
  payment_at (payments (created 11 20 0 Scenario.configured)) 0
    = {| payer := 11; payee := 20; amount := 0; status := PENDING |}.
Proof. repeat split; vm_compute; reflexivity. Qed.

(** ** The order of ledger calls and status writes *)

Lemma effects_app w w' tr : trace w' = trace w ++ tr → effects w w' = tr.
Proof. unfold effects. intros ->. apply drop_app_length. Qed.

(** C6 (as the contract has it).  In each of [pay], [release] and [refund]
    the guards come first, then the calls into the ledger, and only after
    they have returned is the record's status written, followed by the
    event: every ledger call of a successful transaction is made while the
    record still carries its status from before the transition. *)
Theorem ledger_calls_precede_status_write (w w' : World) (sender id : N) :
  let r := payment_at (payments w) id in
  (pay id sender w = Done tt w' →
     effects w w' =
       [ExternalCall (CallApprove (payer r) (this w) (amount r));
        ExternalCall (CallTransferFrom (this w) (payer r) (this w) (amount r));
        StatusWrite id PAID;
        Emit (paymentPaid (payer r) (payee r) (amount r))] ∧
     status_seen id (status r) (effects w w') =
       [(CallApprove (payer r) (this w) (amount r), PENDING);
        (CallTransferFrom (this w) (payer r) (this w) (amount r), PENDING)]) ∧
  (release id sender w = Done tt w' →
     effects w w' =
       [ExternalCall (CallTransfer (this w) (payee r) (amount r - commissionFee w));
        StatusWrite id RELEASED;
        Emit (paymentReleased (payer r) (payee r) (amount r))] ∧
     status_seen id (status r) (effects w w') =
       [(CallTransfer (this w) (payee r) (amount r - commissionFee w), PAID)]) ∧
  (refund id sender w = Done tt w' →
     effects w w' =
       [ExternalCall (CallTransfer (this w) (payer r) (amount r));
        StatusWrite id REFUNDED;
        Emit (paymentRefunded (payer r) (payee r) (amount r))] ∧
     status_seen id (status r) (effects w w') =
       [(CallTransfer (this w) (payer r) (amount r), PAID)]).
Proof.
  cbn. split; [|split].
  - rewrite pay_eq; cbn. repeat (case_bool_decide; [|done]).
    destruct (approveLeaseToken _ _ _ _); [|done].
    destruct (transferLeaseTokenFrom _ _ _ _ _); [|done].
    intros [= <-].
    erewrite effects_app;
      [|unfold paid, store_status; cbn; by rewrite <- !app_assoc].
    split; [done|]. cbn. by rewrite H1.
  - rewrite release_eq; cbn. repeat (case_bool_decide; [|done]).
    destruct (checked_sub _ _) as [net|] eqn:Hs; [|done].
    destruct (transferLeaseToken _ _ _ _); [|done].
    intros [= <-]. apply checked_sub_Some in Hs as [_ ->].
    erewrite effects_app;
      [|unfold released, store_status; cbn; by rewrite <- !app_assoc].
    split; [done|]. cbn. by rewrite H1.
  - rewrite refund_eq; cbn. destruct (_ || _); [|done].
    repeat (case_bool_decide; [|done]).
    destruct (transferLeaseToken _ _ _ _); [|done].
    intros [= <-].
    erewrite effects_app;
      [|unfold refunded, store_status; cbn; by rewrite <- !app_assoc].
    split; [done|]. cbn. by rewrite H0.
Qed.

(** The theorem applied to the release of the worked history. *)
Lemma ledger_calls_precede_status_write_witness :
  release 0 2 Scenario.w_paid = Done tt Scenario.w_released ∧
  status_seen 0 (status_of Scenario.w_paid 0)
    (effects Scenario.w_paid Scenario.w_released)
  = [(CallTransfer 100 20 950, PAID)].
Proof.
  assert (release 0 2 Scenario.w_paid = Done tt Scenario.w_released) as Hrun
    by (vm_compute; reflexivity).
  split; [exact Hrun|].
  destruct (ledger_calls_precede_status_write Scenario.w_paid Scenario.w_released 2 0)
    as (_ & Hrel & _).
  destruct (Hrel Hrun) as [_ Hseen].
  etransitivity; [exact Hseen|]. vm_compute. reflexivity.
Defined.

(** C6, as stated, fails: in the release of the worked history the transfer
    to the landlord is the first effect and the status write the second, so
    the ledger is called while the record still reads PAID, not RELEASED. *)
Lemma release_calls_ledger_while_paid :
  release 0 2 Scenario.w_paid = Done tt Scenario.w_released ∧
  effects Scenario.w_paid Scenario.w_released
  = [ExternalCall (CallTransfer 100 20 950);
     StatusWrite 0 RELEASED;
     Emit (paymentReleased 10 20 1000)] ∧
  status_seen 0 PAID (effects Scenario.w_paid Scenario.w_released)
  = [(CallTransfer 100 20 950, PAID)] ∧
  status_seen 0 PAID (effects Scenario.w_paid Scenario.w_released)
  ≠ [(CallTransfer 100 20 950, RELEASED)].
Proof. repeat split; vm_compute; done. Qed.

(** ** Reading a record *)

Lemma fresh_above_store_status id0 s w0 w :
  payments w = payments w0 → numOfPayments w = numOfPayments w0 →
  id0 < numOfPayments w0 → fresh_above w0 → fresh_above (store_status id0 s w).
Proof.
  intros Hp Hn Hid Hf id Hge. unfold store_status in *; cbn in *.
  rewrite lookup_insert_ne by lia. rewrite Hp. apply Hf. lia.
Qed.

Lemma commits_fresh_above w w' :
  commits w w' → fresh_above w → fresh_above w'.
Proof.
  destruct 1 as [p q a Hroom|id0 l' Hid0 Hst|id0 net l' Hid0 Hst|id0 l' Hid0 Hst
                | | | | | ]; intros Hf; try exact Hf.
  - intros id Hge. unfold created, store_payment in *; cbn in *.
    rewrite lookup_insert_ne by lia. apply Hf. lia.
  - unfold paid. cbn -[store_status]. by apply (fresh_above_store_status _ _ w).
  - unfold released. cbn -[store_status]. by apply (fresh_above_store_status _ _ w).
  - unfold refunded. cbn -[store_status]. by apply (fresh_above_store_status _ _ w).
Qed.

Lemma fresh_above_transact sender c w :
  fresh_above w → fresh_above (transact sender c w).
Proof.
  destruct (transact_inv sender c w) as [-> | H]; [done|].
  by apply commits_fresh_above.
Qed.

Lemma reachable_fresh_above w : reachable w → fresh_above w.
Proof.
  induction 1 as [deployer self leaseToken pf cf|sender c w _ IH|l w _ IH].
  - intros id _. apply lookup_empty.
  - by apply fresh_above_transact.
  - exact IH.
Qed.

(** C7 (as the contract has it).  [getPayment] has no existence guard: for
    every id it returns the mapping's entry and leaves the world as it is.
    Below the payment count that is the stored record; at or beyond the
    count, in every reachable world, it is the all-zero record (payer 0,
    payee 0, amount 0, status PENDING), returned without any failure. *)
Theorem getPayment_never_fails (w : World) (sender id : N) :
  getPayment id sender w = Done (payment_at (payments w) id) w ∧
  (reachable w → numOfPayments w ≤ id →
     getPayment id sender w = Done zero_payment w).
Proof.
  split; [done|].
  intros Hr Hge. unfold getPayment, gets.
  by rewrite (payment_at_absent _ _ (reachable_fresh_above w Hr id Hge)).
Qed.

(** The theorem applied to the worked history, whose count is 1, at id 5. *)
Lemma getPayment_never_fails_witness :
  numOfPayments Scenario.w_paid ≤ 5 ∧
  getPayment 5 7 Scenario.w_paid = Done zero_payment Scenario.w_paid.
Proof.
  assert (numOfPayments Scenario.w_paid ≤ 5) as Hge by (vm_compute; by intros [=]).
  split; [exact Hge|].
  destruct (getPayment_never_fails Scenario.w_paid 7 5) as [_ Hzero].
  exact (Hzero reachable_w_paid Hge).
Defined.

(** C7, as stated, fails: on the freshly deployed contract, whose count is
    0, reading id 0 returns the all-zero record instead of failing with
    NotFound. *)
Lemma getPayment_out_of_range_returns_zero :
  reachable Scenario.deployed ∧
  numOfPayments Scenario.deployed ≤ 0 ∧
  getPayment 0 7 Scenario.deployed = Done zero_payment Scenario.deployed ∧
  (∀ f w', getPayment 0 7 Scenario.deployed ≠ Reverted f w').
Proof.
  split; [constructor|]. split; [vm_compute; by intros [=]|].
  split; [reflexivity|]. intros f w'. vm_compute. by intros [=].
Qed.

(** ** Owner withdrawal *)

(** A successful [withdrawToken] comes from the owner, moves the escrow's
    whole balance to the owner in one ledger call, and then emits the event
    with the balance the escrow has after that transfer. *)
Lemma withdrawToken_spec (w w' : World) (sender : N) :
  withdrawToken sender w = Done tt w' →
  let bal := checkLeaseToken (this w) (leaseTokenContract w) in
  sender = owner w ∧
  transferLeaseToken (this w) (owner w) bal (leaseTokenContract w)
    = Some (leaseTokenContract w') ∧
  effects w w' =
    [ExternalCall (CallTransfer (this w) (owner w) bal);
     Emit (tokenWithdrawn (owner w) (checkLeaseToken (this w) (leaseTokenContract w')))] ∧
  (owner w ≠ this w →
     checkLeaseToken (this w) (leaseTokenContract w') = 0 ∧
     checkLeaseToken (owner w) (leaseTokenContract w')
       = checkLeaseToken (owner w) (leaseTokenContract w) + bal).
Proof.
  rewrite withdrawToken_eq; cbn. case_bool_decide; [|done].
  destruct (transferLeaseToken _ _ _ _) as [l'|] eqn:Ht; [|done].
  intros [= <-]. split; [done|]. split; [done|].
  split. { apply effects_app. unfold withdrawn; cbn. by rewrite <- !app_assoc. }
  intros Hne. cbn.
  destruct (transferLeaseToken_balances _ _ _ _ _ Ht) as (_ & _ & _ & Hmove & _).
  destruct (Hmove ltac:(congruence)) as [Hfrom Hto].
  rewrite Hfrom, Hto. split; [lia|done].
Qed.

Lemma withdrawToken_only_owner (w : World) (sender : N) :
  sender ≠ owner w →
  withdrawToken sender w = Reverted OnlyOwner w ∧
  transact sender WithdrawToken w = w.
Proof.
  intros Hne. unfold transact, dispatch. rewrite withdrawToken_eq; cbn.
  by rewrite (bool_decide_eq_false_2 _ Hne).
Qed.

(** C8 (the contract at the failing input).  After the release of the worked
    history the escrow holds the commission of 50.  The owner's
    [withdrawToken] succeeds and transfers those 50 to the owner, but the
    [tokenWithdrawn] event it emits carries 0: the amount is read from the
    ledger after the transfer has emptied the escrow. *)
Theorem withdrawToken_event_reports_zero :
  let w := Scenario.w_released in
  let w' := transact 1 WithdrawToken w in
  owner w = 1 ∧
  checkLeaseToken 100 (leaseTokenContract w) = 50 ∧
  withdrawToken 1 w = Done tt w' ∧
  effects w w' = [ExternalCall (CallTransfer 100 1 50); Emit (tokenWithdrawn 1 0)] ∧
  checkLeaseToken 1 (leaseTokenContract w') = 50 ∧
  checkLeaseToken 100 (leaseTokenContract w') = 0.
Proof. repeat split; vm_compute; reflexivity. Qed.

(** ** Fees *)

Lemma setCommissionFee_zero_rejected (w : World) (sender : N) :
  (∃ f, setCommissionFee 0 sender w = Reverted f w ∧
        (sender = owner w → kind f = Some InvalidParameter)) ∧
  transact sender (SetCommissionFee 0) w = w.
Proof.
  unfold transact, dispatch. rewrite setCommissionFee_eq.
  change (bool_decide (0 < 0)) with false.
  case_bool_decide; split; try done; eexists; split; done.
Qed.

(** Once positive, the fees stay positive through every transaction. *)
Lemma fees_stay_positive sender c w :
  0 < protectionFee w ∧ 0 < commissionFee w →
  0 < protectionFee (transact sender c w) ∧ 0 < commissionFee (transact sender c w).
Proof.
  intros [Hp Hc].
  destruct (transact_inv sender c w) as [-> | H]; [done|].
  destruct H; cbn; done.
Qed.

Lemma run_fees_stay_positive cs : ∀ w,
  0 < protectionFee w ∧ 0 < commissionFee w →
  0 < protectionFee (run w cs) ∧ 0 < commissionFee (run w cs).
Proof.
  induction cs as [|[sender c] cs IH]; intros w Hpos; cbn; [done|].
  by apply IH, fees_stay_positive.
Qed.

(** C9 (the contract at the failing input).  The constructor stores the
    fees it is given without the check the setters make: deployed with both
    fees 0, the contract is in a reachable world whose protection fee and
    commission fee are 0, although [setCommissionFee 0] and
    [setProtectionFee 0] by the owner would be refused there. *)
Theorem constructor_accepts_zero_fees :
  let w := constructor 1 100 Scenario.ledger0 0 0 in
  reachable w ∧
  protectionFee w = 0 ∧
  commissionFee w = 0 ∧
  setCommissionFee 0 1 w = Reverted CommissionFeeNotPositive w ∧
  setProtectionFee 0 1 w = Reverted ProtectionFeeNotPositive w.
Proof. split; [constructor|]. repeat split. Qed.

(** ** Release below the commission fee *)

(** C10.  When a PAID record's amount is below the current commission fee,
    [release] cannot succeed: from the marketplace it aborts with the
    arithmetic panic of the checked subtraction, raised with the world still
    as it was (no ledger call made, no status written), from anyone else it
    is stopped by the role gate; either way the world after the transaction
    is the world before it.  The subtraction is defined exactly when the fee
    does not exceed the amount, and nothing enforces that: a world where a
    PAID record has an amount below the fee is reachable. *)
Theorem release_below_fee_aborts :
  (∀ (w : World) (sender id : N),
     id < numOfPayments w →
     status_of w id = PAID →
     amount (payment_at (payments w) id) < commissionFee w →
     (sender = rentalMarketplaceAddress w →
        release id sender w = Reverted Panic_0x11 w) ∧
     (∃ f, release id sender w = Reverted f w) ∧
     transact sender (Release id) w = w ∧
     status_of (transact sender (Release id) w) id = PAID ∧
     checkLeaseToken (this w) (leaseTokenContract (transact sender (Release id) w))
       = checkLeaseToken (this w) (leaseTokenContract w)) ∧
  (∀ a fee, is_Some (checked_sub a fee) ↔ fee ≤ a) ∧
  (∃ w id, reachable w ∧ id < numOfPayments w ∧ status_of w id = PAID ∧
           amount (payment_at (payments w) id) < commissionFee w).
Proof.
  split; [|split].
  - intros w sender id Hid Hpaid Hlt.
    assert (release id sender w =
            Reverted (if bool_decide (sender = rentalMarketplaceAddress w)
                      then Panic_0x11 else OnlyRentalMarketplace) w) as Hrel.
    { rewrite release_eq; cbn. case_bool_decide; [|done].
      rewrite (bool_decide_eq_true_2 _ Hid).
      unfold status_of in Hpaid. rewrite (bool_decide_eq_true_2 _ Hpaid).
      unfold checked_sub. case_decide; [lia|done]. }
    assert (transact sender (Release id) w = w) as Htx.
    { unfold transact, dispatch. by rewrite Hrel. }
    rewrite Htx. repeat split; eauto.
    intros Hm. rewrite Hrel. by rewrite (bool_decide_eq_true_2 _ Hm).
  - intros a fee. unfold checked_sub. case_decide; split; done.
  - exists Scenario.w_small_paid, 0.
    split; [apply reachable_run; repeat apply reachable_run; constructor|].
    repeat split; vm_compute; reflexivity.
Qed.

(** The theorem applied to that world: the marketplace's release of the
    payment of 10 under the fee of 50 panics and changes nothing. *)
Lemma release_below_fee_aborts_witness :
  release 0 2 Scenario.w_small_paid = Reverted Panic_0x11 Scenario.w_small_paid ∧
  transact 2 (Release 0) Scenario.w_small_paid = Scenario.w_small_paid.
Proof.
  destruct release_below_fee_aborts as [Habort _].
  destruct (Habort Scenario.w_small_paid 2 0) as (Hpanic & _ & Htx & _);
    [vm_compute; reflexivity..|].
  split; [apply Hpanic; vm_compute; reflexivity|exact Htx].
Defined.

(** * Further properties of the contract *)

(** ** More on the ledger *)

Lemma approveLeaseToken_balances holder spender value l l' :
  approveLeaseToken holder spender value l = Some l' →
  ∀ who, checkLeaseToken who l' = checkLeaseToken who l.
Proof. unfold approveLeaseToken. by intros [= <-]. Qed.

Lemma transferLeaseTokenFrom_balances spender sender recipient value l l' :
  transferLeaseTokenFrom spender sender recipient value l = Some l' →
  value ≤ checkLeaseToken sender l ∧
  (∀ other, other ≠ sender → other ≠ recipient →
     checkLeaseToken other l' = checkLeaseToken other l) ∧
  (sender ≠ recipient →
     checkLeaseToken sender l' = checkLeaseToken sender l - value ∧
     checkLeaseToken recipient l' = checkLeaseToken recipient l + value) ∧
  (sender = recipient → checkLeaseToken sender l' = checkLeaseToken sender l).
Proof.
  unfold transferLeaseTokenFrom.
  destruct (checked_sub _ _) as [remaining|]; [|done].
  intros Ht.
  destruct (transferLeaseToken_balances _ _ _ _ _ Ht) as (H1 & _ & H2 & H3 & H4).
  done.
Qed.

(** A transfer goes through when the sender holds the value and the
    recipient's balance stays within [uint256]. *)
Lemma transferLeaseToken_succeeds sender recipient value l :
  value ≤ checkLeaseToken sender l →
  (sender ≠ recipient → checkLeaseToken recipient l + value ≤ uint256_max) →
  (sender = recipient → checkLeaseToken sender l ≤ uint256_max) →
  is_Some (transferLeaseToken sender recipient value l).
Proof.
  unfold transferLeaseToken, checkLeaseToken, checked_sub, checked_add.
  intros Hle Hne Heq. case_decide; [|lia].
  destruct (decide (sender = recipient)) as [<-|Hd].
  - rewrite lookup_insert_eq; cbn. specialize (Heq eq_refl).
    case_decide; [by eexists|lia].
  - rewrite lookup_insert_ne by done. specialize (Hne Hd).
    case_decide; [by eexists|lia].
Qed.

Lemma transferLeaseToken_short sender recipient value l :
  checkLeaseToken sender l < value →
  transferLeaseToken sender recipient value l = None.
Proof.
  unfold transferLeaseToken, checkLeaseToken, checked_sub.
  intros Hlt. case_decide; [lia|done].
Qed.

(** ** Funding a payment *)

(** X1.  A successful [pay] comes from the marketplace, finds an existing
    PENDING record and leaves it PAID with payer, payee and amount kept and
    the payment count as it was; the payer held at least the amount, and
    (for a payer other than the escrow itself) exactly the amount has moved
    from the payer's balance to the escrow's, every other balance staying as
    it was. *)
Theorem pay_moves_amount_into_escrow (w w' : World) (sender id : N) :
  pay id sender w = Done tt w' →
  let r := payment_at (payments w) id in
  sender = rentalMarketplaceAddress w ∧
  id < numOfPayments w ∧
  status r = PENDING ∧
  payment_at (payments w') id
    = {| payer := payer r; payee := payee r; amount := amount r; status := PAID |} ∧
  numOfPayments w' = numOfPayments w ∧
  amount r ≤ checkLeaseToken (payer r) (leaseTokenContract w) ∧
  (payer r ≠ this w →
     checkLeaseToken (this w) (leaseTokenContract w')
       = checkLeaseToken (this w) (leaseTokenContract w) + amount r ∧
     checkLeaseToken (payer r) (leaseTokenContract w')
       = checkLeaseToken (payer r) (leaseTokenContract w) - amount r) ∧
  (∀ other, other ≠ payer r → other ≠ this w →
     checkLeaseToken other (leaseTokenContract w')
       = checkLeaseToken other (leaseTokenContract w)).
Proof.
  rewrite pay_eq; cbn.
  repeat (case_bool_decide; [|done]).
  destruct (approveLeaseToken _ _ _ _) as [l1|] eqn:Ha; [|done].
  destruct (transferLeaseTokenFrom _ _ _ _ _) as [l2|] eqn:Ht; [|done].
  intros [= <-].
  pose proof (approveLeaseToken_balances _ _ _ _ _ Ha) as Hsame.
  destruct (transferLeaseTokenFrom_balances _ _ _ _ _ _ Ht) as (Hle & Hoth & Hmove & _).
  split; [done|]. split; [done|]. split; [done|].
  split. { unfold paid. cbn -[store_status].
           rewrite payment_at_store_status. by case_decide. }
  split; [done|].
  split. { by rewrite <- Hsame. }
  split.
  - intros Hne. cbn. destruct (Hmove Hne) as [Hfrom Hto].
    by rewrite Hfrom, Hto, !Hsame.
  - intros other H1' H2'. cbn. by rewrite Hoth, Hsame.
Qed.

(** The theorem applied to the funding of the worked history. *)
Lemma pay_moves_amount_into_escrow_witness :
  pay 0 2 Scenario.w_pending = Done tt Scenario.w_paid ∧
  numOfPayments Scenario.w_paid = numOfPayments Scenario.w_pending.
Proof.
  assert (pay 0 2 Scenario.w_pending = Done tt Scenario.w_paid) as Hrun
    by (vm_compute; reflexivity).
  split; [exact Hrun|].
  destruct (pay_moves_amount_into_escrow _ _ _ _ Hrun) as (_ & _ & _ & _ & Hn & _).
  exact Hn.
Defined.

(** When the gate, the existence check and the state check pass, [refund]
    stands or falls with the ledger transfer. *)
Lemma refund_Done (w : World) (sender id : N) (l' : Ledger) :
  sender = rentalMarketplaceAddress w ∨ sender = rentDisputeDAOAddress w →
  id < numOfPayments w →
  status (payment_at (payments w) id) = PAID →
  transferLeaseToken (this w) (payer (payment_at (payments w) id))
    (amount (payment_at (payments w) id)) (leaseTokenContract w) = Some l' →
  refund id sender w = Done tt (refunded id l' w).
Proof.
  intros Hrole Hid Hpaid Hl. rewrite refund_eq. cbv zeta.
  assert (bool_decide (sender = rentalMarketplaceAddress w)
          || bool_decide (sender = rentDisputeDAOAddress w) = true) as ->.
  { destruct Hrole as [H|H]; rewrite (bool_decide_eq_true_2 _ H); [done|].
    apply orb_true_r. }
  rewrite (bool_decide_eq_true_2 _ Hid), (bool_decide_eq_true_2 _ Hpaid).
  by rewrite Hl.
Qed.

(** The fields of the world [pay] commits. *)
Lemma paid_fields id l' w :
  this (paid id l' w) = this w ∧
  numOfPayments (paid id l' w) = numOfPayments w ∧
  leaseTokenContract (paid id l' w) = l' ∧
  rentalMarketplaceAddress (paid id l' w) = rentalMarketplaceAddress w ∧
  rentDisputeDAOAddress (paid id l' w) = rentDisputeDAOAddress w ∧
  payment_at (payments (paid id l' w)) id
    = {| payer := payer (payment_at (payments w) id);
         payee := payee (payment_at (payments w) id);
         amount := amount (payment_at (payments w) id); status := PAID |}.
Proof.
  repeat split. unfold paid. cbn -[store_status].
  rewrite payment_at_store_status. by case_decide.
Qed.

Lemma refunded_fields id l' w :
  leaseTokenContract (refunded id l' w) = l' ∧
  status_of (refunded id l' w) id = REFUNDED.
Proof.
  split; [done|]. unfold status_of, refunded. cbn -[store_status].
  rewrite payment_at_store_status. by case_decide.
Qed.

(** X2.  Funding and then refunding a payment is a round trip for the
    ledger: after a successful [pay], a [refund] of the same payment from
    the marketplace or the dispute authority always succeeds (the payer
    being someone other than the escrow, with a balance that was within
    [uint256]), leaves the record REFUNDED and puts every balance back to
    what it was before the [pay]. *)
Theorem pay_then_refund_restores_balances (w w1 : World) (sender sender' id : N) :
  pay id sender w = Done tt w1 →
  sender' = rentalMarketplaceAddress w ∨ sender' = rentDisputeDAOAddress w →
  payer (payment_at (payments w) id) ≠ this w →
  checkLeaseToken (payer (payment_at (payments w) id)) (leaseTokenContract w)
    ≤ uint256_max →
  ∃ w2, refund id sender' w1 = Done tt w2 ∧
        status_of w2 id = REFUNDED ∧
        ∀ who, checkLeaseToken who (leaseTokenContract w2)
               = checkLeaseToken who (leaseTokenContract w).
Proof.
  rewrite pay_eq. cbv zeta.
  repeat (case_bool_decide; [|done]).
  destruct (approveLeaseToken _ _ _ _) as [l1|] eqn:Ha; [|done].
  destruct (transferLeaseTokenFrom _ _ _ _ _) as [l2|] eqn:Ht; [|done].
  intros [= <-] Hrole Hne Hmax.
  pose proof (approveLeaseToken_balances _ _ _ _ _ Ha) as Hsame.
  destruct (transferLeaseTokenFrom_balances _ _ _ _ _ _ Ht) as (Hle & Hoth & Hmove & _).
  destruct (Hmove Hne) as [Hfrom Hto].
  rewrite Hsame in Hle, Hfrom, Hto.
  destruct (paid_fields id l2 w) as (Ethis & Enum & Eledger & Em & Ed & Erec).
  set (r := payment_at (payments w) id) in *.
  destruct (transferLeaseToken_succeeds (this w) (payer r) (amount r) l2)
    as [l3 Hl3]; [lia|intros _; lia|congruence|].
  destruct (refunded_fields id l3 (paid id l2 w)) as [Eledger' Estatus].
  exists (refunded id l3 (paid id l2 w)).
  split; [|split; [exact Estatus|]].
  - apply refund_Done.
    + by rewrite Em, Ed.
    + by rewrite Enum.
    + by rewrite Erec.
    + by rewrite Ethis, Eledger, Erec.
  - intros who. rewrite Eledger'.
    destruct (transferLeaseToken_balances _ _ _ _ _ Hl3) as (_ & _ & Hoth3 & Hmove3 & _).
    destruct (Hmove3 ltac:(congruence)) as [Hfrom3 Hto3].
    destruct (decide (who = this w)) as [->|Hw1].
    { rewrite Hfrom3, Hto. lia. }
    destruct (decide (who = payer r)) as [->|Hw2].
    { rewrite Hto3, Hfrom. lia. }
    rewrite Hoth3 by done. rewrite Hoth by done. apply Hsame.
Qed.

(** The theorem applied to the worked history, refunded by the dispute
    authority. *)
Lemma pay_then_refund_restores_balances_witness :
  ∃ w2, refund 0 3 Scenario.w_paid = Done tt w2 ∧
        status_of w2 0 = REFUNDED ∧
        ∀ who, checkLeaseToken who (leaseTokenContract w2)
               = checkLeaseToken who (leaseTokenContract Scenario.w_pending).
Proof.
  apply (pay_then_refund_restores_balances Scenario.w_pending Scenario.w_paid 2 3 0).
  - vm_compute. reflexivity.
  - right. vm_compute. reflexivity.
  - vm_compute. by intros [=].
  - vm_compute. by intros [=].
Defined.

(** ** Where the escrow's tokens go *)

Lemma release_ledger_short (w : World) (id : N) :
  id < numOfPayments w →
  status (payment_at (payments w) id) = PAID →
  commissionFee w ≤ amount (payment_at (payments w) id) →
  checkLeaseToken (this w) (leaseTokenContract w)
    < amount (payment_at (payments w) id) - commissionFee w →
  release id (rentalMarketplaceAddress w) w
  = Reverted LedgerReverted
      (log (ExternalCall
              (CallTransfer (this w) (payee (payment_at (payments w) id))
                 (amount (payment_at (payments w) id) - commissionFee w))) w).
Proof.
  intros Hid Hpaid Hfee Hshort. rewrite release_eq. cbv zeta.
  rewrite bool_decide_eq_true_2 by done.
  rewrite (bool_decide_eq_true_2 _ Hid), (bool_decide_eq_true_2 _ Hpaid).
  unfold checked_sub. case_decide; [|lia].
  by rewrite transferLeaseToken_short.
Qed.

Lemma refund_ledger_short (w : World) (id : N) :
  id < numOfPayments w →
  status (payment_at (payments w) id) = PAID →
  checkLeaseToken (this w) (leaseTokenContract w)
    < amount (payment_at (payments w) id) →
  refund id (rentalMarketplaceAddress w) w
  = Reverted LedgerReverted
      (log (ExternalCall
              (CallTransfer (this w) (payer (payment_at (payments w) id))
                 (amount (payment_at (payments w) id)))) w).
Proof.
  intros Hid Hpaid Hshort. rewrite refund_eq. cbv zeta.
  rewrite (bool_decide_eq_true_2 (_ = rentalMarketplaceAddress w)) by done.
  rewrite orb_true_l.
  rewrite (bool_decide_eq_true_2 _ Hid), (bool_decide_eq_true_2 _ Hpaid).
  by rewrite transferLeaseToken_short.
Qed.

(** The fields of the world [withdrawToken] commits. *)
Lemma withdrawn_fields l' w :
  this (withdrawn l' w) = this w ∧
  numOfPayments (withdrawn l' w) = numOfPayments w ∧
  commissionFee (withdrawn l' w) = commissionFee w ∧
  leaseTokenContract (withdrawn l' w) = l' ∧
  payments (withdrawn l' w) = payments w.
Proof. done. Qed.

(** X3.  [withdrawToken] does not set the funds of PAID payments aside: a
    successful withdrawal (by an owner other than the escrow itself) leaves
    the escrow with nothing, the records as they were, and every PAID
    payment whose amount exceeds the commission fee stuck: the marketplace's
    [release] and [refund] of it are then turned down by the ledger, and the
    record stays PAID. *)
Theorem withdrawToken_takes_escrowed_funds (w w' : World) (sender id : N) :
  withdrawToken sender w = Done tt w' →
  owner w ≠ this w →
  id < numOfPayments w →
  status_of w id = PAID →
  commissionFee w < amount (payment_at (payments w) id) →
  let r := payment_at (payments w) id in
  let m := rentalMarketplaceAddress w' in
  checkLeaseToken (this w) (leaseTokenContract w') = 0 ∧
  payment_at (payments w') id = r ∧
  release id m w'
    = Reverted LedgerReverted
        (log (ExternalCall
                (CallTransfer (this w) (payee r) (amount r - commissionFee w))) w') ∧
  refund id m w'
    = Reverted LedgerReverted
        (log (ExternalCall (CallTransfer (this w) (payer r) (amount r))) w') ∧
  status_of (transact m (Release id) w') id = PAID ∧
  status_of (transact m (Refund id) w') id = PAID.
Proof.
  rewrite withdrawToken_eq. cbv zeta. case_bool_decide; [|done].
  destruct (transferLeaseToken _ _ _ _) as [l'|] eqn:Ht; [|done].
  intros [= <-] Hne Hid Hpaid Hfee. cbv zeta.
  destruct (transferLeaseToken_balances _ _ _ _ _ Ht) as (_ & _ & _ & Hmove & _).
  destruct (Hmove ltac:(congruence)) as [Hzero _].
  destruct (withdrawn_fields l' w) as (Ethis & Enum & Efee & Eledger & Epay).
  assert (checkLeaseToken (this w) l' = 0) as Hempty by lia.
  unfold status_of in Hpaid.
  assert (release id (rentalMarketplaceAddress (withdrawn l' w)) (withdrawn l' w)
          = Reverted LedgerReverted
              (log (ExternalCall
                      (CallTransfer (this w)
                         (payee (payment_at (payments w) id))
                         (amount (payment_at (payments w) id) - commissionFee w)))
                 (withdrawn l' w))) as Hrel.
  { rewrite release_ledger_short; rewrite ?Ethis, ?Enum, ?Efee, ?Eledger, ?Epay;
      try done; lia. }
  assert (refund id (rentalMarketplaceAddress (withdrawn l' w)) (withdrawn l' w)
          = Reverted LedgerReverted
              (log (ExternalCall
                      (CallTransfer (this w)
                         (payer (payment_at (payments w) id))
                         (amount (payment_at (payments w) id))))
                 (withdrawn l' w))) as Href.
  { rewrite refund_ledger_short; rewrite ?Ethis, ?Enum, ?Eledger, ?Epay;
      try done; lia. }
  split; [by rewrite Eledger|]. split; [by rewrite Epay|].
  split; [exact Hrel|]. split; [exact Href|].
  unfold transact, dispatch. rewrite Hrel, Href.
  unfold status_of. by rewrite Epay.
Qed.

(** The theorem applied to the funded payment of the worked history: the
    owner withdraws the 1000 held for it and the release no longer goes
    through. *)
Lemma withdrawToken_takes_escrowed_funds_witness :
  let w' := transact 1 WithdrawToken Scenario.w_paid in
  withdrawToken 1 Scenario.w_paid = Done tt w' ∧
  status_of (transact (rentalMarketplaceAddress w') (Release 0) w') 0 = PAID.
Proof.
  set (w' := transact 1 WithdrawToken Scenario.w_paid).
  assert (withdrawToken 1 Scenario.w_paid = Done tt w') as Hrun
    by (vm_compute; reflexivity).
  split; [exact Hrun|].
  destruct (withdrawToken_takes_escrowed_funds Scenario.w_paid w' 1 0 Hrun)
    as (_ & _ & _ & _ & Hst & _); [vm_compute; by intros [=]|vm_compute; reflexivity..|].
  exact Hst.
Defined.

(** X4.  Tokens leave the escrow's balance only through a payout: whenever
    a transaction lowers the escrow's ledger balance, it is a [release] by
    the marketplace or a [refund] by the marketplace or the dispute
    authority of an existing PAID payment, or a [withdrawToken] by the
    owner. *)
Theorem escrow_balance_falls_only_by_payout (sender : N) (c : Call) (w : World) :
  checkLeaseToken (this w) (leaseTokenContract (transact sender c w))
    < checkLeaseToken (this w) (leaseTokenContract w) →
  (∃ id, c = Release id ∧ sender = rentalMarketplaceAddress w ∧
         id < numOfPayments w ∧ status_of w id = PAID) ∨
  (∃ id, c = Refund id ∧
         (sender = rentalMarketplaceAddress w ∨ sender = rentDisputeDAOAddress w) ∧
         id < numOfPayments w ∧ status_of w id = PAID) ∨
  (c = WithdrawToken ∧ sender = owner w).
Proof.
  unfold transact, dispatch.
  destruct c as [p q a|id0|id0|id0| |v|v|a|a].
  - unfold mbind, mret, Tx_bind, Tx_ret. rewrite createPayment_eq.
    destruct (_ || _); [|lia]. case_bool_decide; [|lia].
    case_decide; [|lia]. unfold created, store_payment. cbn. lia.
  - rewrite pay_eq. cbv zeta. repeat (case_bool_decide; [|lia]).
    destruct (approveLeaseToken _ _ _ _) as [l1|] eqn:Ha; [|lia].
    destruct (transferLeaseTokenFrom _ _ _ _ _) as [l2|] eqn:Ht; [|lia].
    destruct (paid_fields id0 l2 w) as (_ & _ & -> & _).
    pose proof (approveLeaseToken_balances _ _ _ _ _ Ha) as Hsame.
    destruct (transferLeaseTokenFrom_balances _ _ _ _ _ _ Ht) as (_ & _ & Hmove & Hself).
    destruct (decide (payer (payment_at (payments w) id0) = this w)) as [Heq|Hne].
    + rewrite Heq in Hself. rewrite (Hself eq_refl), Hsame. lia.
    + destruct (Hmove Hne) as [_ Hto]. rewrite Hto, Hsame. lia.
  - rewrite release_eq. cbv zeta. repeat (case_bool_decide; [|lia]).
    intros _. left. by exists id0.
  - rewrite refund_eq. cbv zeta.
    destruct (bool_decide (sender = rentalMarketplaceAddress w)
              || bool_decide (sender = rentDisputeDAOAddress w)) eqn:Hgate; [|lia].
    apply orb_true_iff in Hgate. rewrite !bool_decide_eq_true in Hgate.
    repeat (case_bool_decide; [|lia]).
    intros _. right. left. by exists id0.
  - rewrite withdrawToken_eq. cbv zeta. case_bool_decide; [|lia].
    intros _. right. by right.
  - rewrite setProtectionFee_eq. repeat (case_bool_decide; [|lia]). cbn. lia.
  - rewrite setCommissionFee_eq. repeat (case_bool_decide; [|lia]). cbn. lia.
  - rewrite setRentalMarketplaceAddress_eq.
    repeat (case_bool_decide; [|lia]). cbn. lia.
  - rewrite setRentDisputeDAOAddress_eq.
    repeat (case_bool_decide; [|lia]). cbn. lia.
Qed.

(** The theorem applied to the release of the worked history, which takes
    the escrow from 1000 to 50. *)
Lemma escrow_balance_falls_only_by_payout_witness :
  checkLeaseToken 100 (leaseTokenContract (transact 2 (Release 0) Scenario.w_paid))
    < checkLeaseToken 100 (leaseTokenContract Scenario.w_paid) ∧
  2 = rentalMarketplaceAddress Scenario.w_paid.
Proof.
  assert (checkLeaseToken (this Scenario.w_paid)
            (leaseTokenContract (transact 2 (Release 0) Scenario.w_paid))
          < checkLeaseToken (this Scenario.w_paid)
              (leaseTokenContract Scenario.w_paid)) as Hlt
    by (vm_compute; reflexivity).
  split; [vm_compute; reflexivity|].
  destruct (escrow_balance_falls_only_by_payout 2 (Release 0) Scenario.w_paid Hlt)
    as [(id & _ & Hm & _)|[(id & Hc & _)|[Hc _]]]; [exact Hm|discriminate..].
Defined.

(** ** The owner's functions and the configuration *)

(** X5.  The five functions behind [onlyOwner] ([withdrawToken] and the
    four setters) reject every caller other than the owner with the
    owner-only message, classified Unauthorized, whatever their argument,
    and the transaction leaves the world exactly as it was. *)
Theorem onlyOwner_rejects_others (w : World) (sender : N) :
  sender ≠ owner w →
  withdrawToken sender w = Reverted OnlyOwner w ∧
  (∀ v, setProtectionFee v sender w = Reverted OnlyOwner w) ∧
  (∀ v, setCommissionFee v sender w = Reverted OnlyOwner w) ∧
  (∀ a, setRentalMarketplaceAddress a sender w = Reverted OnlyOwner w) ∧
  (∀ a, setRentDisputeDAOAddress a sender w = Reverted OnlyOwner w) ∧
  kind OnlyOwner = Some Unauthorized ∧
  (∀ v a c,
     c ∈ [WithdrawToken; SetProtectionFee v; SetCommissionFee v;
          SetRentalMarketplaceAddress a; SetRentDisputeDAOAddress a] →
     transact sender c w = w).
Proof.
  intros Hne.
  assert (withdrawToken sender w = Reverted OnlyOwner w) as Hw.
  { rewrite withdrawToken_eq. cbv zeta. by rewrite (bool_decide_eq_false_2 _ Hne). }
  assert (∀ v, setProtectionFee v sender w = Reverted OnlyOwner w) as Hp.
  { intros v. rewrite setProtectionFee_eq. by rewrite (bool_decide_eq_false_2 _ Hne). }
  assert (∀ v, setCommissionFee v sender w = Reverted OnlyOwner w) as Hc.
  { intros v. rewrite setCommissionFee_eq. by rewrite (bool_decide_eq_false_2 _ Hne). }
  assert (∀ a, setRentalMarketplaceAddress a sender w = Reverted OnlyOwner w) as Hm.
  { intros a. rewrite setRentalMarketplaceAddress_eq.
    by rewrite (bool_decide_eq_false_2 _ Hne). }
  assert (∀ a, setRentDisputeDAOAddress a sender w = Reverted OnlyOwner w) as Hd.
  { intros a. rewrite setRentDisputeDAOAddress_eq.
    by rewrite (bool_decide_eq_false_2 _ Hne). }
  repeat (split; [done|]).
  intros v a c Hin. unfold transact.
  repeat (apply elem_of_cons in Hin as [->|Hin]; [cbn [dispatch]|]).
  - by rewrite Hw.
  - by rewrite Hp.
  - by rewrite Hc.
  - by rewrite Hm.
  - by rewrite Hd.
  - by apply elem_of_nil in Hin.
Qed.

(** The theorem applied to the marketplace (2) trying to set the commission
    fee in the worked history. *)
Lemma onlyOwner_rejects_others_witness :
  2 ≠ owner Scenario.w_paid ∧
  transact 2 (SetCommissionFee 1) Scenario.w_paid = Scenario.w_paid.
Proof.
  assert (2 ≠ owner Scenario.w_paid) as Hne by (vm_compute; by intros [=]).
  split; [exact Hne|].
  destruct (onlyOwner_rejects_others Scenario.w_paid 2 Hne)
    as (_ & _ & _ & _ & _ & _ & Htx).
  apply (Htx 1 0). rewrite !elem_of_cons. right. right. by left.
Defined.

(** X6.  The fees and the two role bindings change only at the owner's
    hand: a transaction sent by anyone else, whatever it calls, leaves the
    protection fee, the commission fee, the marketplace address and the
    dispute authority address as they were. *)
Theorem configuration_changes_only_by_owner (w : World) (sender : N) (c : Call) :
  sender ≠ owner w →
  protectionFee (transact sender c w) = protectionFee w ∧
  commissionFee (transact sender c w) = commissionFee w ∧
  rentalMarketplaceAddress (transact sender c w) = rentalMarketplaceAddress w ∧
  rentDisputeDAOAddress (transact sender c w) = rentDisputeDAOAddress w.
Proof.
  intros Hne. unfold transact.
  destruct c as [p q a|id0|id0|id0| |v|v|a|a]; cbn [dispatch].
  - unfold mbind, mret, Tx_bind, Tx_ret. rewrite createPayment_eq.
    destruct (_ || _); [|done]. case_bool_decide; [|done]. by case_decide.
  - rewrite pay_eq. cbv zeta. repeat (case_bool_decide; [|done]).
    destruct (approveLeaseToken _ _ _ _); [|done].
    by destruct (transferLeaseTokenFrom _ _ _ _ _).
  - rewrite release_eq. cbv zeta. repeat (case_bool_decide; [|done]).
    destruct (checked_sub _ _); [|done].
    by destruct (transferLeaseToken _ _ _ _).
  - rewrite refund_eq. cbv zeta. destruct (_ || _); [|done].
    repeat (case_bool_decide; [|done]).
    by destruct (transferLeaseToken _ _ _ _).
  - rewrite withdrawToken_eq. cbv zeta. by rewrite (bool_decide_eq_false_2 _ Hne).
  - rewrite setProtectionFee_eq. by rewrite (bool_decide_eq_false_2 _ Hne).
  - rewrite setCommissionFee_eq. by rewrite (bool_decide_eq_false_2 _ Hne).
  - rewrite setRentalMarketplaceAddress_eq. by rewrite (bool_decide_eq_false_2 _ Hne).
  - rewrite setRentDisputeDAOAddress_eq. by rewrite (bool_decide_eq_false_2 _ Hne).
Qed.

(** The theorem applied to the marketplace (2) trying to rebind itself in
    the worked history. *)
Lemma configuration_changes_only_by_owner_witness :
  rentalMarketplaceAddress
    (transact 2 (SetRentalMarketplaceAddress 9) Scenario.w_paid)
  = rentalMarketplaceAddress Scenario.w_paid.
Proof.
  destruct (configuration_changes_only_by_owner Scenario.w_paid 2
              (SetRentalMarketplaceAddress 9)) as (_ & _ & Hm & _);
    [vm_compute; by intros [=]|exact Hm].
Defined.

Lemma commits_owner_this w w' :
  commits w w' → owner w' = owner w ∧ this w' = this w.
Proof. by destruct 1. Qed.

(** X7.  The owner and the contract's own address are fixed for good: no
    sequence of transactions, from whatever senders, changes either. *)
Theorem owner_is_fixed (w : World) (cs : list (N * Call)) :
  owner (run w cs) = owner w ∧ this (run w cs) = this w.
Proof.
  revert w. induction cs as [|[sender c] cs IH]; intros w; cbn [run]; [done|].
  destruct (IH (transact sender c w)) as [-> ->].
  destruct (transact_inv sender c w) as [-> | H]; [done|].
  by apply commits_owner_this.
Qed.

Lemma commits_bindings_nonzero w w' :
  commits w w' →
  (rentalMarketplaceAddress w ≠ address_0 → rentalMarketplaceAddress w' ≠ address_0) ∧
  (rentDisputeDAOAddress w ≠ address_0 → rentDisputeDAOAddress w' ≠ address_0).
Proof. by destruct 1. Qed.

(** X8.  A role binding can be replaced but never cleared: once the
    marketplace address (or the dispute authority address) is not
    [address(0)], it is not [address(0)] after any sequence of
    transactions. *)
Theorem bindings_never_cleared (w : World) (cs : list (N * Call)) :
  (rentalMarketplaceAddress w ≠ address_0 →
     rentalMarketplaceAddress (run w cs) ≠ address_0) ∧
  (rentDisputeDAOAddress w ≠ address_0 →
     rentDisputeDAOAddress (run w cs) ≠ address_0).
Proof.
  revert w. induction cs as [|[sender c] cs IH]; intros w; cbn [run]; [done|].
  destruct (IH (transact sender c w)) as [IHm IHd].
  assert ((rentalMarketplaceAddress w ≠ address_0 →
             rentalMarketplaceAddress (transact sender c w) ≠ address_0) ∧
          (rentDisputeDAOAddress w ≠ address_0 →
             rentDisputeDAOAddress (transact sender c w) ≠ address_0)) as [Hm Hd].
  { destruct (transact_inv sender c w) as [-> | H]; [done|].
    by apply commits_bindings_nonzero. }
  split; auto.
Qed.

(** The theorem applied to the configured contract of the worked history,
    with the owner trying to clear the marketplace binding. *)
Lemma bindings_never_cleared_witness :
  rentalMarketplaceAddress
    (run Scenario.configured [(1, SetRentalMarketplaceAddress 0); (2, Pay 0)])
  ≠ address_0.
Proof.
  destruct (bindings_never_cleared Scenario.configured
              [(1, SetRentalMarketplaceAddress 0); (2, Pay 0)]) as [Hm _].
  apply Hm. vm_compute. by intros [=].
Defined.

Lemma transact_owner sender c w : owner (transact sender c w) = owner w.
Proof.
  destruct (transact_inv sender c w) as [-> | H]; [done|].
  by apply commits_owner_this.
Qed.

(** A transaction that is not a role setter sent by the owner leaves both
    role bindings as they are. *)
Lemma transact_keeps_bindings sender c w :
  sender ≠ owner w ∨ binds_role c = false →
  rentalMarketplaceAddress (transact sender c w) = rentalMarketplaceAddress w ∧
  rentDisputeDAOAddress (transact sender c w) = rentDisputeDAOAddress w.
Proof.
  intros Hnot. unfold transact.
  destruct c as [p q a|id0|id0|id0| |v|v|a|a]; cbn [dispatch].
  - unfold mbind, mret, Tx_bind, Tx_ret. rewrite createPayment_eq.
    destruct (_ || _); [|done]. case_bool_decide; [|done]. by case_decide.
  - rewrite pay_eq. cbv zeta. repeat (case_bool_decide; [|done]).
    destruct (approveLeaseToken _ _ _ _); [|done].
    by destruct (transferLeaseTokenFrom _ _ _ _ _).
  - rewrite release_eq. cbv zeta. repeat (case_bool_decide; [|done]).
    destruct (checked_sub _ _); [|done].
    by destruct (transferLeaseToken _ _ _ _).
  - rewrite refund_eq. cbv zeta. destruct (_ || _); [|done].
    repeat (case_bool_decide; [|done]).
    by destruct (transferLeaseToken _ _ _ _).
  - rewrite withdrawToken_eq. cbv zeta. case_bool_decide; [|done].
    by destruct (transferLeaseToken _ _ _ _).
  - rewrite setProtectionFee_eq. by repeat case_bool_decide.
  - rewrite setCommissionFee_eq. by repeat case_bool_decide.
  - destruct Hnot as [Hne | Hb]; [|discriminate Hb].
    rewrite setRentalMarketplaceAddress_eq.
    by rewrite (bool_decide_eq_false_2 _ Hne).
  - destruct Hnot as [Hne | Hb]; [|discriminate Hb].
    rewrite setRentDisputeDAOAddress_eq.
    by rewrite (bool_decide_eq_false_2 _ Hne).
Qed.

Lemma run_keeps_bindings cs : ∀ w,
  Forall (λ sc : N * Call, sc.1 ≠ owner w ∨ binds_role sc.2 = false) cs →
  rentalMarketplaceAddress (run w cs) = rentalMarketplaceAddress w ∧
  rentDisputeDAOAddress (run w cs) = rentDisputeDAOAddress w.
Proof.
  induction cs as [|[sender c] cs IH]; intros w Hall; cbn [run]; [done|].
  apply Forall_cons in Hall as [Hhead Htail]. cbn in Hhead.
  destruct (transact_keeps_bindings sender c w Hhead) as [<- <-].
  apply IH. eapply Forall_impl; [exact Htail|].
  intros sc Hsc. by rewrite transact_owner.
Qed.

(** While both role addresses are [address(0)], no caller (a real sender is
    never [address(0)]) gets past the role gates. *)
Lemma unbound_roles_reject (w : World) (sender _payer _payee _amount id : N) :
  rentalMarketplaceAddress w = address_0 →
  rentDisputeDAOAddress w = address_0 →
  sender ≠ address_0 →
  createPayment _payer _payee _amount sender w
    = Reverted OnlyRentalMarketplaceOrRentDisputeDAO w ∧
  pay id sender w = Reverted OnlyRentalMarketplace w ∧
  release id sender w = Reverted OnlyRentalMarketplace w ∧
  refund id sender w = Reverted OnlyRentalMarketplaceOrRentDisputeDAO w.
Proof.
  intros Hm Hd Hne.
  rewrite createPayment_eq, pay_eq, release_eq, refund_eq. cbv zeta.
  rewrite Hm, Hd. by rewrite (bool_decide_eq_false_2 _ Hne).
Qed.

(** X9.  Until the owner binds the roles the escrow is closed.  In every
    world where both role addresses are [address(0)], [createPayment],
    [pay], [release] and [refund] reject every caller (a real sender is
    never [address(0)]) with Unauthorized; the constructor leaves both
    addresses [address(0)], and they stay so through every history of
    transactions in which the owner has not called a role setter, so that
    after any such history the four functions still reject every caller. *)
Theorem unconfigured_contract_rejects_all :
  (∀ (w : World) (sender _payer _payee _amount id : N),
     rentalMarketplaceAddress w = address_0 →
     rentDisputeDAOAddress w = address_0 →
     sender ≠ address_0 →
     createPayment _payer _payee _amount sender w
       = Reverted OnlyRentalMarketplaceOrRentDisputeDAO w ∧
     pay id sender w = Reverted OnlyRentalMarketplace w ∧
     release id sender w = Reverted OnlyRentalMarketplace w ∧
     refund id sender w = Reverted OnlyRentalMarketplaceOrRentDisputeDAO w) ∧
  (∀ (deployer self : N) (leaseToken : Ledger) (pf cf : N)
     (cs : list (N * Call)) (sender _payer _payee _amount id : N),
     Forall (λ sc : N * Call, sc.1 ≠ deployer ∨ binds_role sc.2 = false) cs →
     sender ≠ address_0 →
     let w := run (constructor deployer self leaseToken pf cf) cs in
     rentalMarketplaceAddress w = address_0 ∧
     rentDisputeDAOAddress w = address_0 ∧
     createPayment _payer _payee _amount sender w
       = Reverted OnlyRentalMarketplaceOrRentDisputeDAO w ∧
     pay id sender w = Reverted OnlyRentalMarketplace w ∧
     release id sender w = Reverted OnlyRentalMarketplace w ∧
     refund id sender w = Reverted OnlyRentalMarketplaceOrRentDisputeDAO w) ∧
  kind OnlyRentalMarketplace = Some Unauthorized ∧
  kind OnlyRentalMarketplaceOrRentDisputeDAO = Some Unauthorized.
Proof.
  split; [exact unbound_roles_reject|]. split; [|done].
  intros deployer self leaseToken pf cf cs sender _payer _payee _amount id Hall Hne.
  cbv zeta.
  destruct (run_keeps_bindings cs (constructor deployer self leaseToken pf cf) Hall)
    as [Hm Hd].
  change (rentalMarketplaceAddress (constructor deployer self leaseToken pf cf))
    with address_0 in Hm.
  change (rentDisputeDAOAddress (constructor deployer self leaseToken pf cf))
    with address_0 in Hd.
  split; [exact Hm|]. split; [exact Hd|].
  by apply unbound_roles_reject.
Qed.

(** The theorem applied to the deployment of the worked history after the
    owner (1) has set the commission fee to 7 and a stranger (7) has tried
    to bind a role: the future marketplace (2) still cannot create a
    payment. *)
Lemma unconfigured_contract_rejects_all_witness :
  let w := run (constructor 1 100 Scenario.ledger0 5 50)
             [(1, SetCommissionFee 7); (7, SetRentalMarketplaceAddress 7)] in
  commissionFee w = 7 ∧
  createPayment 10 20 1000 2 w = Reverted OnlyRentalMarketplaceOrRentDisputeDAO w.
Proof.
  cbv zeta. split; [vm_compute; reflexivity|].
  destruct unconfigured_contract_rejects_all as (_ & Hhist & _).
  destruct (Hhist 1 100 Scenario.ledger0 5 50
              [(1, SetCommissionFee 7); (7, SetRentalMarketplaceAddress 7)]
              2 10 20 1000 0) as (_ & _ & Hc & _).
  - apply Forall_cons. split; [right; reflexivity|].
    apply Forall_cons. split; [left; by intros [=]|]. apply Forall_nil_2.
  - by intros [=].
  - exact Hc.
Defined.

(** ** Existence and state guards *)

(** X10.  An id at or beyond the payment count names no payment, even
    though the mapping reads there as a zero record with status PENDING:
    [pay] and [release] from the marketplace and [refund] from the
    marketplace or the dispute authority are rejected with the NotFound
    message, the world untouched, so an unused id can never be funded. *)
Theorem missing_payment_rejected (w : World) (id : N) :
  numOfPayments w ≤ id →
  pay id (rentalMarketplaceAddress w) w = Reverted PaymentDoesNotExist w ∧
  release id (rentalMarketplaceAddress w) w = Reverted PaymentDoesNotExist w ∧
  (∀ sender,
     sender = rentalMarketplaceAddress w ∨ sender = rentDisputeDAOAddress w →
     refund id sender w = Reverted PaymentDoesNotExist w) ∧
  kind PaymentDoesNotExist = Some NotFound.
Proof.
  intros Hge.
  assert (bool_decide (id < numOfPayments w) = false) as Hno
    by (apply bool_decide_eq_false_2; lia).
  rewrite pay_eq, release_eq. cbv zeta.
  rewrite bool_decide_eq_true_2 by done. rewrite Hno.
  repeat (split; [done|]). split; [|done].
  intros sender Hrole. rewrite refund_eq. cbv zeta. rewrite Hno.
  destruct Hrole as [H|H]; rewrite (bool_decide_eq_true_2 _ H); [done|].
  by rewrite orb_true_r.
Qed.

(** The theorem applied to the worked history, whose only payment has id 0,
    at id 1. *)
Lemma missing_payment_rejected_witness :
  pay 1 (rentalMarketplaceAddress Scenario.w_paid) Scenario.w_paid
  = Reverted PaymentDoesNotExist Scenario.w_paid.
Proof.
  destruct (missing_payment_rejected Scenario.w_paid 1) as [Hpay _];
    [vm_compute; by intros [=]|exact Hpay].
Defined.

(** X11.  The state guard of each transition: on an existing record, the
    marketplace's [pay] is rejected with InvalidState unless the record is
    PENDING, and [release] (from the marketplace) and [refund] (from the
    marketplace or the dispute authority) are rejected with InvalidState
    unless it is PAID; in particular a payment that was created but never
    funded can be neither released nor refunded.  The world is untouched. *)
Theorem wrong_state_rejected (w : World) (id : N) :
  id < numOfPayments w →
  (status_of w id ≠ PENDING →
     pay id (rentalMarketplaceAddress w) w = Reverted PaymentAlreadyMade w) ∧
  (status_of w id ≠ PAID →
     release id (rentalMarketplaceAddress w) w = Reverted PaymentNotMadeYet w ∧
     ∀ sender,
       sender = rentalMarketplaceAddress w ∨ sender = rentDisputeDAOAddress w →
       refund id sender w = Reverted PaymentNotMadeYet w) ∧
  kind PaymentAlreadyMade = Some InvalidState ∧
  kind PaymentNotMadeYet = Some InvalidState.
Proof.
  intros Hid. unfold status_of.
  split; [|split; [|done]].
  - intros Hst. rewrite pay_eq. cbv zeta.
    rewrite bool_decide_eq_true_2 by done.
    by rewrite (bool_decide_eq_true_2 _ Hid), (bool_decide_eq_false_2 _ Hst).
  - intros Hst. split.
    + rewrite release_eq. cbv zeta.
      rewrite bool_decide_eq_true_2 by done.
      by rewrite (bool_decide_eq_true_2 _ Hid), (bool_decide_eq_false_2 _ Hst).
    + intros sender Hrole. rewrite refund_eq. cbv zeta.
      rewrite (bool_decide_eq_true_2 _ Hid), (bool_decide_eq_false_2 _ Hst).
      destruct Hrole as [H|H]; rewrite (bool_decide_eq_true_2 _ H); [done|].
      by rewrite orb_true_r.
Qed.

(** The theorem applied to the unfunded payment of the worked history: the
    dispute authority (3) cannot refund it. *)
Lemma wrong_state_rejected_witness :
  refund 0 3 Scenario.w_pending = Reverted PaymentNotMadeYet Scenario.w_pending.
Proof.
  destruct (wrong_state_rejected Scenario.w_pending 0) as (_ & Hpaid & _);
    [vm_compute; reflexivity|].
  destruct Hpaid as [_ Href]; [vm_compute; by intros [=]|].
  apply Href. right. vm_compute. reflexivity.
Defined.

(** ** The payment table *)

Lemma commits_stored w w' :
  commits w w' →
  (∀ id, id < numOfPayments w → is_Some (payments w !! id)) →
  ∀ id, id < numOfPayments w' → is_Some (payments w' !! id).
Proof.
  destruct 1 as [p q a Hroom|id0 l' Hid0 Hst|id0 net l' Hid0 Hst|id0 l' Hid0 Hst
                | | | | | ]; intros Hall id Hid; try by apply Hall.
  - unfold created, store_payment in *; cbn in *.
    destruct (decide (numOfPayments w = id)) as [->|Hne].
    + rewrite lookup_insert_eq. by eexists.
    + rewrite lookup_insert_ne by done. apply Hall. lia.
  - unfold paid, store_status in *; cbn in *.
    destruct (decide (id0 = id)) as [->|Hne].
    + rewrite lookup_insert_eq. by eexists.
    + rewrite lookup_insert_ne by done. by apply Hall.
  - unfold released, store_status in *; cbn in *.
    destruct (decide (id0 = id)) as [->|Hne].
    + rewrite lookup_insert_eq. by eexists.
    + rewrite lookup_insert_ne by done. by apply Hall.
  - unfold refunded, store_status in *; cbn in *.
    destruct (decide (id0 = id)) as [->|Hne].
    + rewrite lookup_insert_eq. by eexists.
    + rewrite lookup_insert_ne by done. by apply Hall.
Qed.

(** X12.  In every reachable world the payment table holds exactly the ids
    below the payment count: ids are handed out consecutively from 0, none
    is skipped and none is ever removed. *)
Theorem payments_are_exactly_the_ids_below_count (w : World) :
  reachable w →
  ∀ id, is_Some (payments w !! id) ↔ id < numOfPayments w.
Proof.
  intros Hr id. split.
  - intros Hsome. destruct (decide (id < numOfPayments w)) as [|Hge]; [done|].
    rewrite (reachable_fresh_above w Hr id) in Hsome by lia.
    by destruct Hsome.
  - revert id.
    induction Hr as [deployer self leaseToken pf cf|sender c w _ IH|l w _ IH].
    + intros id Hid. cbn in Hid. lia.
    + destruct (transact_inv sender c w) as [-> | H]; [done|].
      by apply (commits_stored w).
    + exact IH.
Qed.

(** The theorem applied to the worked history. *)
Lemma payments_are_exactly_the_ids_below_count_witness :
  is_Some (payments Scenario.w_paid !! 0) ∧
  ¬ is_Some (payments Scenario.w_paid !! 1).
Proof.
  pose proof (payments_are_exactly_the_ids_below_count Scenario.w_paid
                reachable_w_paid) as H.
  split.
  - apply H. vm_compute. reflexivity.
  - intros Hsome. apply H in Hsome. vm_compute in Hsome. discriminate.
Defined.

(** ** The creation log *)







(** ** Setting the fees and the role bindings *)

(** X14.  Setting a fee and reading it back: the owner's [setCommissionFee]
    (or [setProtectionFee]) with a positive value commits, the matching
    getter then returns that value to any reader, the other fee, the
    bindings, the payment table, the count and the ledger are as they were,
    and the only effect is the fee-set event. *)
Theorem fee_setter_round_trip (w : World) (v reader : N) :
  0 < v →
  let wc := transact (owner w) (SetCommissionFee v) w in
  let wp := transact (owner w) (SetProtectionFee v) w in
  (getCommissionFee reader wc = Done v wc ∧
   getProtectionFee reader wc = Done (protectionFee w) wc ∧
   effects w wc = [Emit (commissionFeeSet v)] ∧
   payments wc = payments w ∧ numOfPayments wc = numOfPayments w ∧
   leaseTokenContract wc = leaseTokenContract w ∧
   rentalMarketplaceAddress wc = rentalMarketplaceAddress w ∧
   rentDisputeDAOAddress wc = rentDisputeDAOAddress w) ∧
  (getProtectionFee reader wp = Done v wp ∧
   getCommissionFee reader wp = Done (commissionFee w) wp ∧
   effects w wp = [Emit (protectionFeeSet v)] ∧
   payments wp = payments w ∧ numOfPayments wp = numOfPayments w ∧
   leaseTokenContract wp = leaseTokenContract w ∧
   rentalMarketplaceAddress wp = rentalMarketplaceAddress w ∧
   rentDisputeDAOAddress wp = rentDisputeDAOAddress w).
Proof.
  intros Hv. cbv zeta. unfold transact. cbn [dispatch].
  rewrite setCommissionFee_eq, setProtectionFee_eq.
  rewrite bool_decide_eq_true_2 by done.
  rewrite (bool_decide_eq_true_2 _ Hv).
  split; (split; [done|]); (split; [done|]);
    (split; [by apply effects_app|]); done.
Qed.

(** The theorem applied to the worked history with the fee raised to 80. *)
Lemma fee_setter_round_trip_witness :
  getCommissionFee 7 (transact (owner Scenario.w_paid) (SetCommissionFee 80)
                        Scenario.w_paid)
  = Done 80 (transact (owner Scenario.w_paid) (SetCommissionFee 80) Scenario.w_paid).
Proof.
  destruct (fee_setter_round_trip Scenario.w_paid 80 7) as [(Hget & _) _];
    [vm_compute; reflexivity|exact Hget].
Defined.

(** X15.  Rebinding a role hands the gate over.  The owner's
    [setRentalMarketplaceAddress] with a non-zero address commits and is
    read back by the getter; from then on [pay] and [release] reject every
    other caller, the previous marketplace included, while the records, the
    count, the fees, the ledger and the dispute authority binding are as
    they were.  Likewise after [setRentDisputeDAOAddress], [refund] and
    [createPayment] reject everyone but the marketplace and the new dispute
    authority.  With [address(0)] either setter is rejected with
    InvalidParameter and nothing changes. *)
Theorem rebinding_hands_over_the_gate (w : World) (a reader : N) :
  (a ≠ address_0 →
   let wm := transact (owner w) (SetRentalMarketplaceAddress a) w in
   let wd := transact (owner w) (SetRentDisputeDAOAddress a) w in
   (getRentalMarketplaceAddress reader wm = Done a wm ∧
    rentDisputeDAOAddress wm = rentDisputeDAOAddress w ∧
    payments wm = payments w ∧ numOfPayments wm = numOfPayments w ∧
    commissionFee wm = commissionFee w ∧ protectionFee wm = protectionFee w ∧
    leaseTokenContract wm = leaseTokenContract w ∧
    ∀ id other, other ≠ a →
      pay id other wm = Reverted OnlyRentalMarketplace wm ∧
      release id other wm = Reverted OnlyRentalMarketplace wm) ∧
   (getRentDisputeDAOAddress reader wd = Done a wd ∧
    rentalMarketplaceAddress wd = rentalMarketplaceAddress w ∧
    payments wd = payments w ∧ numOfPayments wd = numOfPayments w ∧
    commissionFee wd = commissionFee w ∧ protectionFee wd = protectionFee w ∧
    leaseTokenContract wd = leaseTokenContract w ∧
    ∀ id p q amt other, other ≠ a → other ≠ rentalMarketplaceAddress w →
      refund id other wd = Reverted OnlyRentalMarketplaceOrRentDisputeDAO wd ∧
      createPayment p q amt other wd
        = Reverted OnlyRentalMarketplaceOrRentDisputeDAO wd)) ∧
  setRentalMarketplaceAddress address_0 (owner w) w
    = Reverted InvalidRentalMarketplaceAddress w ∧
  setRentDisputeDAOAddress address_0 (owner w) w
    = Reverted InvalidRentDisputeDAOAddress w ∧
  kind InvalidRentalMarketplaceAddress = Some InvalidParameter ∧
  kind InvalidRentDisputeDAOAddress = Some InvalidParameter ∧
  transact (owner w) (SetRentalMarketplaceAddress address_0) w = w ∧
  transact (owner w) (SetRentDisputeDAOAddress address_0) w = w.
Proof.
  assert (setRentalMarketplaceAddress address_0 (owner w) w
          = Reverted InvalidRentalMarketplaceAddress w) as Hm0.
  { rewrite setRentalMarketplaceAddress_eq.
    rewrite bool_decide_eq_true_2 by done.
    by rewrite bool_decide_eq_false_2 by (intros H; by apply H). }
  assert (setRentDisputeDAOAddress address_0 (owner w) w
          = Reverted InvalidRentDisputeDAOAddress w) as Hd0.
  { rewrite setRentDisputeDAOAddress_eq.
    rewrite bool_decide_eq_true_2 by done.
    by rewrite bool_decide_eq_false_2 by (intros H; by apply H). }
  split; [|unfold transact; cbn [dispatch]; by rewrite Hm0, Hd0].
  intros Ha. cbv zeta. unfold transact. cbn [dispatch].
  rewrite setRentalMarketplaceAddress_eq, setRentDisputeDAOAddress_eq.
  rewrite bool_decide_eq_true_2 by done.
  rewrite (bool_decide_eq_true_2 _ Ha).
  split.
  - repeat (split; [done|]).
    intros id other Hne. rewrite pay_eq, release_eq. cbv zeta. cbn.
    by rewrite (bool_decide_eq_false_2 _ Hne).
  - repeat (split; [done|]).
    intros id p q amt other Hne Hnm. rewrite refund_eq, createPayment_eq. cbv zeta. cbn.
    by rewrite (bool_decide_eq_false_2 _ Hne), (bool_decide_eq_false_2 _ Hnm).
Qed.

(** The theorem applied to the worked history: the owner binds marketplace
    9, and the former marketplace 2 can no longer release the payment. *)
Lemma rebinding_hands_over_the_gate_witness :
  let wm := transact (owner Scenario.w_paid) (SetRentalMarketplaceAddress 9)
              Scenario.w_paid in
  release 0 2 wm = Reverted OnlyRentalMarketplace wm.
Proof.
  destruct (rebinding_hands_over_the_gate Scenario.w_paid 9 7) as [Hset _].
  destruct Hset as [(_ & _ & _ & _ & _ & _ & _ & Hgate) _]; [vm_compute; by intros [=]|].
  destruct (Hgate 0 2) as [_ Hrel]; [vm_compute; by intros [=]|exact Hrel].
Defined.
